(** * dhkam: blinded Diffie-Hellman key agreement (RFC 3526 group 14) and
    the RFC 2631 KEK/CEK derivation, embedded from dhkam.go.

    Go values are modelled as follows:
    - a [*big.Int] is a [Z] (the code only builds non-negative ones);
    - a [[]byte] is a [list Z] whose elements are bytes ([bytes_ok]);
    - the [io.Reader] passed as [prng] is the finite list of bytes it will
      deliver; functions that read from it thread it as state ([M]);
    - a Go run-time panic (slice bounds out of range, index out of range) is
      the outcome [Panic]; a returned non-nil [error] is [Err e]. *)

From Stdlib Require Import ZArith List Lia Bool.
From Stdlib Require Import Zpow_facts.
From Bignums Require Import BigZ.BigZ.
Import ListNotations.
Open Scope Z_scope.

(** ** Errors and outcomes *)

Inductive error :=
| ErrBlindingFailed
| ErrInvalidKEKParams
| ErrInvalidPrivateKey
| ErrInvalidPublicKey
| ErrInvalidSharedKey
| ErrEOF               (* io.EOF from io.ReadFull / binary.Read *)
| ErrUnexpectedEOF     (* io.ErrUnexpectedEOF *)
| ErrMarshal.          (* error returned by asn1.Marshal *)

Inductive outcome (A : Type) : Type :=
| Ok (a : A)
| Err (e : error)
| Panic.
Arguments Ok {A} a.
Arguments Err {A} e.
Arguments Panic {A}.

(** The bytes an [io.Reader] still has to deliver. *)
Definition reader := list Z.

(** State (the reader) and failure (error or panic). *)
Definition M (A : Type) : Type := reader -> outcome (A * reader).

Definition ret {A} (a : A) : M A := fun s => Ok (a, s).
Definition raise {A} (e : error) : M A := fun _ => Err e.
Definition panic {A} : M A := fun _ => Panic.

Definition bind {A B} (m : M A) (k : A -> M B) : M B :=
  fun s =>
    match m s with
    | Ok (a, s') => k a s'
    | Err e => Err e
    | Panic => Panic
    end.

Notation "x <- m ;; k" := (bind m (fun x => k))
  (at level 61, m at next level, right associativity).

(** [if err != nil { err = e; return }]: replace any error by [e]. *)
Definition remap_err {A} (e : error) (m : M A) : M A :=
  fun s =>
    match m s with
    | Err _ => Err e
    | r => r
    end.

Definition is_byte (b : Z) : bool := (0 <=? b) && (b <? 256).
Definition bytes_ok (l : list Z) : bool := forallb is_byte l.

(** ** math/big *)

(** [new(big.Int).SetBytes(buf)]: big-endian unsigned value. *)
Definition SetBytes (buf : list Z) : Z :=
  fold_left (fun acc b => acc * 256 + b) buf 0.

(** [x.BitLen()]: length of the absolute value in bits; 0 for 0. *)
Definition BitLen (x : Z) : Z :=
  if x =? 0 then 0 else Z.log2 (Z.abs x) + 1.

(** Little-endian digits of [x]; [fuel] bounds the number of digits. *)
Fixpoint le_digits (fuel : nat) (x : Z) : list Z :=
  match fuel with
  | O => []
  | S f => if x <=? 0 then [] else x mod 256 :: le_digits f (x / 256)
  end.

(** [x.Bytes()]: minimal big-endian encoding of |x| ([] for 0).  The
    slice it returns has capacity equal to its length. *)
Definition Bytes (x : Z) : list Z :=
  rev (le_digits (Z.to_nat (BitLen x)) (Z.abs x)).

(** [new(big.Int).Exp(x, y, m)] for a positive modulus [m]: [x**y mod m].
    For [y <= 0] Go returns 1; [blind] only passes positive exponents. *)
Definition Exp (x y m : Z) : Z :=
  if y <=? 0 then 1 mod m else Zpow_mod x y m.

(** ** Group parameters *)

(** Modelled from the spec: the group constants [P], [g], [big2To256],
    [big2To258], [bigZero] and [bigOne] are declared in a file of the
    package that is not part of the sources.  The spec fixes the modulus
    as the 2048-bit RFC 3526 Group 14 prime, the generator as a small
    integer (RFC 3526 gives 2) and the blinding offsets as 2^256 and 2^258. *)
Definition P : Z :=
  32317006071311007300338913926423828248817941241140239112842009751400741706634354222619689417363569347117901737909704191754605873209195028853758986185622153212175412514901774520270235796078236248884246189477587641105928646099411723245426622522193230540919037680524235519125679715870117001058055877651038861847280257976054903569732561526167081339361799541336476559160368317896729073178384589680639671900977202194168647225871031411336429319536193471636533209717077448227988588565369208645296636077250268955505928362751121174096972998068410554359584866583291642136218231078990999448652468262416972035911852507045361090559.

(** Modelled from the spec: the generator of RFC 3526 Group 14. *)
Definition g : Z := 2.
(** Modelled from the spec: the blinding offsets. *)
Definition big2To256 : Z := 2 ^ 256.
Definition big2To258 : Z := 2 ^ 258.
Definition bigZero : Z := 0.
Definition bigOne : Z := 1.

Definition lenPriv : Z := 32.
Definition lenPub : Z := 256.

(** ** Keys *)

Record PublicKey := mkPublicKey { A : Z }.

(** Go embeds [PublicKey] in [PrivateKey]; the embedded field is [Pub]. *)
Record PrivateKey := mkPrivateKey { Pub : PublicKey; X : Z }.

(** [ImportPublic]: no reader involved. *)
Definition Valid (pub : PublicKey) : bool :=
  BitLen (A pub) <=? BitLen P.

Definition ImportPublic (inp : list Z) : outcome PublicKey :=
  let pub := mkPublicKey (SetBytes inp) in
  if negb (Valid pub) then Err ErrInvalidPublicKey else Ok pub.

Definition Export (prv : PrivateKey) : list Z := Bytes (A (Pub prv)).

Definition ExportPrivate (prv : PrivateKey) : list Z := Bytes (X prv).

(** [io.ReadFull(prng, make([]byte, n))] on a reader that delivers its
    bytes and then reports [io.EOF]; readers that fail with other errors
    are not modelled. *)
Definition ReadFull (n : Z) : M (list Z) :=
  fun s =>
    let k := Z.to_nat n in
    if (k <=? length s)%nat then Ok (firstn k s, skipn k s)
    else match s with [] => Err ErrEOF | _ => Err ErrUnexpectedEOF end.

(** [randBigInt(prng, size)]. *)
Definition randBigInt (size : Z) : M Z :=
  bs <- ReadFull (size / 8) ;;
  ret (SetBytes bs).

(** [blind(prng, a, x)]. *)
Definition blind (a x : Z) : M Z :=
  let bx := big2To258 + x in
  r <- remap_err ErrBlindingFailed (randBigInt lenPub) ;;
  let blinding := big2To256 + r in
  let bx := bx - blinding in
  let r1 := Exp a blinding P in
  let r2 := Exp a bx P in
  let y := (r1 * r2) mod P in
  if BitLen y >? BitLen P then raise ErrBlindingFailed
  else ret y.

(** [generatePublicKey(prng, x)]. *)
Definition generatePublicKey (x : Z) : M PublicKey :=
  a <- blind g x ;;
  let pub := mkPublicKey a in
  if negb (Valid pub) then raise ErrInvalidPublicKey else ret pub.

(** [ImportPrivate(prng, in)]: [generatePublic] on a fresh key. *)
Definition ImportPrivate (inp : list Z) : M PrivateKey :=
  let x := SetBytes inp in
  pub <- generatePublicKey x ;;
  ret (mkPrivateKey pub x).

(** [GenerateKey(prng)].  The Go function calls itself again on a rejected
    sample; every round reads [lenPriv] bytes, so [length s + 1] rounds
    never run out before the reader does. *)
Fixpoint GenerateKey_rounds (fuel : nat) : M PrivateKey :=
  match fuel with
  | O => raise ErrEOF
  | S f =>
      xb <- ReadFull lenPriv ;;
      let x := SetBytes xb in
      if negb (x >? bigZero) then GenerateKey_rounds f
      else if x >? P - bigOne then GenerateKey_rounds f
      else
        pub <- generatePublicKey x ;;
        if negb (Valid pub) then raise ErrInvalidPublicKey
        else ret (mkPrivateKey pub x)
  end.

Definition GenerateKey : M PrivateKey :=
  fun s => GenerateKey_rounds (S (length s)) s.

(** [s[:n]] on a slice of capacity [length s]. *)
Definition slice_to (l : list Z) (n : Z) : M (list Z) :=
  if (0 <=? n) && (n <=? Z.of_nat (length l)) then ret (firstn (Z.to_nat n) l)
  else panic.

(** [prv.SharedKey(prng, pub, size)]. *)
Definition SharedKey (prv : PrivateKey) (pub : PublicKey) (size : Z)
  : M (list Z) :=
  if negb (Valid pub) then raise ErrInvalidPublicKey
  else
    skBig <- blind (A pub) (X prv) ;;
    sk <- slice_to (Bytes skBig) size ;;
    if Z.of_nat (length sk) <? size then raise ErrInvalidSharedKey
    else ret sk.

(** ** KEK parameters and state *)

Record KeySpecificInfo := mkKeySpecificInfo {
  Algorithm : list Z;        (* asn1.ObjectIdentifier arcs *)
  counter : list Z           (* unexported 4-byte big-endian counter *)
}.

(** [PartyAInfo] is [None] for a nil slice. *)
Record KEKParams := mkKEKParams {
  ParamsKeySpecificInfo : KeySpecificInfo;
  PartyAInfo : option (list Z);
  SuppPubInfo : list Z
}.

(** The [hash.Hash] interface as used here: [Size()] and the digest [Sum]
    of everything written since the last [Reset()].  A [hash.Hash] returns
    [Size()] bytes from [Sum], and every hash of the standard library has a
    positive size. *)
Record Hash := mkHash {
  Size : nat;
  Sum : list Z -> list Z;
  Size_pos : (0 < Size)%nat;
  Sum_length : forall m, length (Sum m) = Size
}.

(** [KEK]; [hbuf] is the data written into [h] since its last reset. *)
Record KEK := mkKEK {
  ZZ : list Z;
  Params : KEKParams;
  h : Hash;
  hbuf : list Z
}.

Definition AES128CBC : list Z := [2; 16; 840; 1; 101; 3; 1; 2].
Definition AES256CBC : list Z := [2; 16; 840; 1; 101; 3; 1; 42].

Definition KEKAES128CBCHMACSHA256 : KEKParams :=
  mkKEKParams (mkKeySpecificInfo AES128CBC []) None [0; 0; 0; 48].
Definition KEKAES256CBCHMACSHA512 : KEKParams :=
  mkKEKParams (mkKeySpecificInfo AES256CBC []) None [0; 0; 0; 32].

(** [binary.Read(buf, binary.BigEndian, &v)] for a 4-byte [v]: the
    unsigned big-endian value of the first four bytes. *)
Definition read_be32 (buf : list Z) : option Z :=
  if (4 <=? length buf)%nat then Some (SetBytes (firstn 4 buf)) else None.

(** [kek.KeyLen()]: reads a [uint32]. *)
Definition KeyLen (kek : KEK) : Z :=
  match read_be32 (SuppPubInfo (Params kek)) with
  | None => 0
  | Some v => v
  end.

(** [incCounter(counter)]; [None] is the index-out-of-range panic of a
    counter shorter than four bytes.  Each [counter[k]++] wraps at 256. *)
Definition incCounter (c : list Z) : option (list Z) :=
  match c with
  | b0 :: b1 :: b2 :: b3 :: rest =>
      let b3' := (b3 + 1) mod 256 in
      if negb (b3' =? 0) then Some (b0 :: b1 :: b2 :: b3' :: rest) else
      let b2' := (b2 + 1) mod 256 in
      if negb (b2' =? 0) then Some (b0 :: b1 :: b2' :: b3' :: rest) else
      let b1' := (b1 + 1) mod 256 in
      if negb (b1' =? 0) then Some (b0 :: b1' :: b2' :: b3' :: rest) else
      Some ((b0 + 1) mod 256 :: b1' :: b2' :: b3' :: rest)
  | _ => None
  end.

(** [copy(dst[i:], src)] for [i <= len(dst)]: copies
    [min(len(dst) - i, len(src))] bytes. *)
Definition copy_at (dst : list Z) (i : nat) (src : list Z) : list Z :=
  let n := Nat.min (length dst - i) (length src) in
  firstn i dst ++ firstn n src ++ skipn (i + n) dst.

(** [zeroPad(in, outlen)]: [out[start:]] panics for a negative [start]. *)
Definition zeroPad (inp : list Z) (outlen : Z) : outcome (list Z) :=
  let inLen := if Z.of_nat (length inp) >? outlen then outlen
               else Z.of_nat (length inp) in
  let start := outlen - inLen - 1 in
  if outlen <? 0 then Panic
  else
    let out := repeat 0 (Z.to_nat outlen) in
    if start <? 0 then Panic
    else Ok (copy_at out (Z.to_nat start) inp).

(** [prv.InitializeKEK(rand, pub, params, ainfo, h)]; [Ok None] is a nil
    [*KEK].  [binary.Read] into an [int32] reads the four bytes signed.
    The caller's [h] is the hash [hh] together with the bytes [hw] already
    written into it since its last reset; the KEK stores it as given
    ([kek.h = h], no [Reset]). *)
Definition InitializeKEK (prv : PrivateKey) (pub : PublicKey)
  (params : KEKParams) (ainfo : option (list Z)) (hh : Hash) (hw : list Z)
  (rand : reader)
  : outcome (option KEK) :=
  let ainfo_bad :=
    match ainfo with Some a => negb (length a =? 64)%nat | None => false end in
  if ainfo_bad then Ok None else
  match read_be32 (SuppPubInfo params) with
  | None => Ok None
  | Some v =>
      let keylen := if v >=? 2 ^ 31 then v - 2 ^ 32 else v in
      match SharedKey prv pub keylen rand with
      | Panic => Panic
      | Err _ => Ok None
      | Ok (zz, _) =>
          match zeroPad zz ((BitLen P + 7) / 8) with
          | Ok zz' =>
              let ksi := mkKeySpecificInfo
                           (Algorithm (ParamsKeySpecificInfo params))
                           [0; 0; 0; 1] in
              Ok (Some (mkKEK zz' (mkKEKParams ksi ainfo (SuppPubInfo params))
                          hh hw))
          | Err e => Err e
          | Panic => Panic
          end
      end
  end.

(** [incCounter] applied [n] times. *)
Fixpoint inc_iter (n : nat) (c : list Z) : option (list Z) :=
  match n with
  | O => Some c
  | S k => match incCounter c with None => None | Some c' => inc_iter k c' end
  end.

(** A well-formed counter: four bytes, as [InitializeKEK] sets it. *)
Definition ctr_ok (c : list Z) : bool := (length c =? 4)%nat && bytes_ok c.

(** The KEK after the loop: new counter, hash state reset. *)
Definition with_counter (kek : KEK) (c : list Z) (buf : list Z) : KEK :=
  let p := Params kek in
  let ksi := ParamsKeySpecificInfo p in
  mkKEK (ZZ kek)
        (mkKEKParams (mkKeySpecificInfo (Algorithm ksi) c)
                     (PartyAInfo p) (SuppPubInfo p))
        (h kek) buf.

Section CEKDerivation.

(** [asn1.Marshal] on a [KEKParams]: the serializer of the parameters,
    which the spec treats as an external, opaque collaborator. *)
Variable marshal : KEKParams -> option (list Z).

(** [marshalKEKParams(kek)]. *)
Definition marshalKEKParams (kek : KEK) : outcome (list Z) :=
  match marshal (Params kek) with
  | Some b => Ok b
  | None => Err ErrMarshal
  end.

(** The loop of [CEK]:
<<
    for i := 0; i < keylen; i += hLen {
        kek.h.Write(kek.ZZ); kek.h.Write(otherInfo)
        copy(key[i:], kek.h.Sum(nil)); kek.h.Reset()
        incCounter(kek.Params.KeySpecificInfo.counter)
    }
>>
    [buf] is the hash state, [ctr] the counter.  Since [Size hh > 0] the loop
    makes at most [keylen] rounds, the fuel [CEK] gives it. *)
Fixpoint cek_loop (fuel : nat) (zz otherInfo : list Z) (hh : Hash)
  (keylen i : nat) (key buf ctr : list Z)
  : outcome (list Z * list Z * list Z) :=
  match fuel with
  | O => Ok (key, buf, ctr)
  | S f =>
      if (i <? keylen)%nat then
        let buf1 := buf ++ zz ++ otherInfo in
        let key1 := copy_at key i (Sum hh buf1) in
        match incCounter ctr with
        | None => Panic
        | Some ctr1 => cek_loop f zz otherInfo hh keylen (i + Size hh) key1 [] ctr1
        end
      else Ok (key, buf, ctr)
  end.

(** [prv.CEK(kek)]; [None] is a nil [*KEK].  The KEK is updated through
    the pointer, so the result carries the new KEK. *)
Definition CEK (kek : option KEK) : outcome (list Z * KEK) :=
  match kek with
  | None => Err ErrInvalidKEKParams
  | Some kek =>
      let keylen := KeyLen kek in
      if keylen =? 0 then Err ErrInvalidKEKParams else
      match marshalKEKParams kek with
      | Err e => Err e
      | Panic => Panic
      | Ok otherInfo =>
          let n := Z.to_nat keylen in
          let key := repeat 0 n in
          match cek_loop n (ZZ kek) otherInfo (h kek) n 0 key []
                  (counter (ParamsKeySpecificInfo (Params kek))) with
          | Ok (key', buf', ctr') => Ok (firstn n key', with_counter kek ctr' buf')
          | Err e => Err e
          | Panic => Panic
          end
      end
  end.

(** [n] successive calls [prv.CEK(kek)] on the same KEK. *)
Fixpoint CEK_seq (n : nat) (kek : KEK) : outcome (list (list Z) * KEK) :=
  match n with
  | O => Ok ([], kek)
  | S m =>
      match CEK (Some kek) with
      | Ok (key, kek1) =>
          match CEK_seq m kek1 with
          | Ok (keys, kek2) => Ok (key :: keys, kek2)
          | Err e => Err e
          | Panic => Panic
          end
      | Err e => Err e
      | Panic => Panic
      end
  end.

End CEKDerivation.

(** * Auxiliary definitions for the proofs and concrete instances *)

(** Value of a little-endian digit list. *)
Definition le_value (l : list Z) : Z := fold_right (fun b acc => acc * 256 + b) 0 l.

(** An executable mirror of [Zpow_mod] on machine-word big integers. *)
Fixpoint powmod_big (a : bigZ) (p : positive) (m : bigZ) : bigZ :=
  match p with
  | xH => BigZ.modulo a m
  | xO q => let t := powmod_big a q m in BigZ.modulo (t * t)%bigZ m
  | xI q =>
      let t := powmod_big a q m in
      BigZ.modulo (BigZ.modulo (t * t)%bigZ m * a)%bigZ m
  end.

(** The shared value [SharedKey] truncates. *)
Definition shared_value (prv : PrivateKey) (pub : PublicKey) : Z :=
  A pub ^ (big2To258 + X prv) mod P.

(** Concrete readers: an exponent byte followed by 32 blinding bytes. *)
Definition reader_x (b : Z) : reader := repeat 0 31 ++ [b] ++ repeat 0 32.
Definition reader_r0 : reader := repeat 0 32.

Definition P_big : bigZ := BigZ.of_Z P.

(** The private key that [GenerateKey] builds from the secret [x]. *)
Definition prv_of (x : Z) : PrivateKey :=
  mkPrivateKey (mkPublicKey (g ^ (big2To258 + x) mod P)) x.

(** A 32-byte sample hash (the byte sum, repeated), for concrete runs. *)
Definition toy_sum (m : list Z) : list Z := repeat (fold_left Z.add m 0 mod 256) 32.

Definition toy_hash : Hash := mkHash 32 toy_sum ltac:(lia) (fun m => repeat_length _ _).

(** The public element [P - 1] and parameters asking for a 256-byte key. *)
Definition pub_m1 : PublicKey := mkPublicKey (P - 1).

Definition params256 : KEKParams :=
  mkKEKParams (mkKeySpecificInfo [] [0; 0; 0; 1]) None [0; 0; 1; 0].

(** Number of hash blocks for [keylen] bytes: [ceil(keylen / hLen)]. *)
Definition nblocks (keylen hLen : nat) : nat := (keylen + hLen - 1) / hLen.

(** The counter of a KEK. *)
Definition kek_counter (kek : KEK) : list Z :=
  counter (ParamsKeySpecificInfo (Params kek)).

(** The number of hash blocks one [CEK] call on [kek] computes. *)
Definition kek_blocks (kek : KEK) : nat :=
  nblocks (Z.to_nat (KeyLen kek)) (Size (h kek)).

(** The serializer used in concrete runs: the algorithm, the counter and
    the supplementary public info, concatenated. *)
Definition toy_marshal (p : KEKParams) : option (list Z) :=
  Some (Algorithm (ParamsKeySpecificInfo p) ++ counter (ParamsKeySpecificInfo p)
        ++ SuppPubInfo p).

(** A KEK as [InitializeKEK] builds it from [KEKAES128CBCHMACSHA256]
    (a 48-byte key) with a 32-byte hash. *)
Definition kek48 : KEK :=
  mkKEK (repeat 0 256)
        (mkKEKParams (mkKeySpecificInfo AES128CBC [0; 0; 0; 1]) None
                     (SuppPubInfo KEKAES128CBCHMACSHA256))
        toy_hash [].

(** Parameters asking for a 1-byte key, and for a key whose length field
    has its top bit set. *)
Definition params1 : KEKParams :=
  mkKEKParams (mkKeySpecificInfo AES256CBC []) None [0; 0; 0; 1].

Definition params_neg : KEKParams :=
  mkKEKParams (mkKeySpecificInfo AES256CBC []) None [128; 0; 0; 0].

Definition params0 : KEKParams :=
  mkKEKParams (mkKeySpecificInfo AES256CBC []) None [0; 0; 0; 0].

(** A KEK as [InitializeKEK] builds it from [KEKAES256CBCHMACSHA512]
    (a 32-byte key) with a 32-byte hash. *)
Definition kek32 : KEK :=
  mkKEK (repeat 0 256)
        (mkKEKParams (mkKeySpecificInfo AES256CBC [0; 0; 0; 1]) None
                     (SuppPubInfo KEKAES256CBCHMACSHA512))
        toy_hash [].

(** The KEK [CEK] would see if it were given [KEKAES128CBCHMACSHA256]
    itself, whose counter is nil. *)
Definition kek_nilctr : KEK :=
  mkKEK (repeat 0 256) KEKAES128CBCHMACSHA256 toy_hash [].

(** A byte string without its leading zero bytes. *)
Fixpoint strip0 (l : list Z) : list Z :=
  match l with
  | [] => []
  | b :: t => if b =? 0 then strip0 t else l
  end.

(** * Lemmas on the big-integer helpers *)

Lemma is_byte_range b : is_byte b = true <-> 0 <= b < 256.
Proof. unfold is_byte. rewrite andb_true_iff, Z.leb_le, Z.ltb_lt. tauto. Qed.

Lemma bytes_ok_firstn n l : bytes_ok l = true -> bytes_ok (firstn n l) = true.
Proof.
  unfold bytes_ok. rewrite !forallb_forall. intros H x Hx.
  apply H. rewrite <- (firstn_skipn n l). apply in_or_app. now left.
Qed.

Lemma SetBytes_acc l acc :
  fold_left (fun a b => a * 256 + b) l acc
  = acc * 256 ^ Z.of_nat (length l) + SetBytes l.
Proof.
  unfold SetBytes. revert acc. induction l as [|b l IH]; intros acc;
    cbn [fold_left length].
  - simpl. lia.
  - rewrite (IH (acc * 256 + b)), (IH (0 * 256 + b)).
    rewrite Nat2Z.inj_succ, Z.pow_succ_r by lia. lia.
Qed.

Lemma SetBytes_range l :
  bytes_ok l = true -> 0 <= SetBytes l < 256 ^ Z.of_nat (length l).
Proof.
  induction l as [|b l IH] using rev_ind; intros Hok.
  - unfold SetBytes. simpl. lia.
  - unfold bytes_ok in Hok. rewrite forallb_app in Hok.
    apply andb_true_iff in Hok as [Hl Hb]. simpl in Hb.
    rewrite andb_true_r, is_byte_range in Hb.
    specialize (IH Hl).
    unfold SetBytes. rewrite fold_left_app. fold (SetBytes l). simpl.
    rewrite length_app, Nat2Z.inj_add, Z.pow_add_r by lia. simpl. nia.
Qed.

Lemma SetBytes_nonneg l : bytes_ok l = true -> 0 <= SetBytes l.
Proof. intros H. apply SetBytes_range in H. lia. Qed.

Lemma le_digits_value fuel x :
  0 <= x < 2 ^ Z.of_nat fuel -> le_value (le_digits fuel x) = x.
Proof.
  revert x. induction fuel as [|f IH]; intros x Hx; simpl.
  - simpl in Hx. simpl. lia.
  - destruct (x <=? 0) eqn:E.
    + apply Z.leb_le in E. simpl. lia.
    + apply Z.leb_gt in E. simpl. rewrite IH.
      * pose proof (Z.div_mod x 256). pose proof (Z.mod_pos_bound x 256). lia.
      * split. apply Z.div_pos; lia.
        apply Z.div_lt_upper_bound. lia.
        rewrite Nat2Z.inj_succ, Z.pow_succ_r in Hx by lia.
        pose proof (Z.pow_pos_nonneg 2 (Z.of_nat f)). lia.
Qed.

Lemma BitLen_bound x : 0 <= x -> x < 2 ^ BitLen x.
Proof.
  intros Hx. unfold BitLen. destruct (Z.eqb_spec x 0).
  - subst. simpl. lia.
  - rewrite Z.abs_eq by lia.
    destruct (Z.log2_spec x) as [_ H]; lia.
Qed.

Lemma BitLen_nonneg x : 0 <= BitLen x.
Proof.
  unfold BitLen. destruct (x =? 0). lia.
  pose proof (Z.log2_nonneg (Z.abs x)). lia.
Qed.

Lemma fold_left_rev {B : Type} (f : B -> Z -> B) (l : list Z) (i : B) :
  fold_left f (rev l) i = fold_right (fun x y => f y x) i l.
Proof.
  induction l as [|a l IH]; simpl; [reflexivity|].
  now rewrite fold_left_app, IH.
Qed.

(** [SetBytes(x.Bytes()) = x]. *)
Lemma SetBytes_Bytes x : 0 <= x -> SetBytes (Bytes x) = x.
Proof.
  intros Hx. unfold SetBytes, Bytes. rewrite fold_left_rev.
  fold (le_value (le_digits (Z.to_nat (BitLen x)) (Z.abs x))).
  rewrite Z.abs_eq by lia. apply le_digits_value.
  rewrite Z2Nat.id by apply BitLen_nonneg. split; [lia|]. now apply BitLen_bound.
Qed.

Lemma BitLen_le_P y : 0 <= y < P -> BitLen y <= BitLen P.
Proof.
  intros Hy. unfold BitLen. destruct (Z.eqb_spec y 0).
  - change (BitLen P) with 2048 in *. vm_compute. discriminate.
  - replace (P =? 0) with false by reflexivity.
    rewrite !Z.abs_eq by (unfold P in *; lia).
    pose proof (Z.log2_le_mono y P). lia.
Qed.

Lemma P_pos : 0 < P.
Proof. unfold P. lia. Qed.

Lemma Exp_pos x y : 0 < y -> Exp x y P = x ^ y mod P.
Proof.
  intros Hy. unfold Exp. destruct (Z.leb_spec y 0); [lia|].
  apply Zpow_mod_correct. pose proof P_pos. lia.
Qed.

(** * The blinded exponentiation *)

Lemma randBigInt_ok s :
  (32 <= length s)%nat ->
  randBigInt lenPub s = Ok (SetBytes (firstn 32 s), skipn 32 s).
Proof.
  intros H. unfold randBigInt, bind, ReadFull, ret. cbv beta zeta.
  change (Z.to_nat (lenPub / 8)) with 32%nat.
  destruct (Nat.leb_spec 32 (length s)); [reflexivity | lia].
Qed.

Lemma randBigInt_range s :
  bytes_ok s = true -> (32 <= length s)%nat ->
  0 <= SetBytes (firstn 32 s) < 2 ^ 256.
Proof.
  intros Hs Hl.
  pose proof (SetBytes_range (firstn 32 s) (bytes_ok_firstn 32 s Hs)) as R.
  rewrite length_firstn in R. replace (Nat.min 32 (length s)) with 32%nat in R by lia.
  exact R.
Qed.

(** [blind] computes [a ^ (2^258 + x) mod P], whatever the random draw. *)
Lemma blind_ok a x s :
  0 <= x -> bytes_ok s = true -> (32 <= length s)%nat ->
  blind a x s = Ok (a ^ (big2To258 + x) mod P, skipn 32 s).
Proof.
  intros Hx Hs Hl. pose proof (randBigInt_range s Hs Hl) as R.
  unfold blind, bind, remap_err. rewrite randBigInt_ok by exact Hl.
  cbv beta zeta.
  set (r := SetBytes (firstn 32 s)) in *.
  unfold big2To258, big2To256.
  assert (E : (2 ^ 258 : Z) = 4 * 2 ^ 256) by reflexivity.
  rewrite E. set (B := (2 ^ 256 : Z)) in *.
  assert (HB : 0 < B) by (unfold B; lia).
  rewrite !Exp_pos by lia.
  rewrite <- Z.mul_mod by (pose proof P_pos; lia).
  rewrite <- Z.pow_add_r by lia.
  replace (B + r + (4 * B + x - (B + r))) with (4 * B + x) by lia.
  pose proof (Z.mod_pos_bound (a ^ (4 * B + x)) P P_pos) as Hm.
  pose proof (BitLen_le_P _ Hm) as Hb.
  destruct (Z.gtb_spec (BitLen (a ^ (4 * B + x) mod P)) (BitLen P)); [lia|].
  reflexivity.
Qed.

Lemma generatePublicKey_ok x s :
  0 <= x -> bytes_ok s = true -> (32 <= length s)%nat ->
  generatePublicKey x s
  = Ok (mkPublicKey (g ^ (big2To258 + x) mod P), skipn 32 s).
Proof.
  intros Hx Hs Hl. unfold generatePublicKey, bind at 1.
  rewrite blind_ok by assumption. cbv beta zeta.
  unfold Valid. cbn [A].
  pose proof (Z.mod_pos_bound (g ^ (big2To258 + x)) P P_pos) as Hm.
  pose proof (BitLen_le_P _ Hm) as Hb.
  destruct (Z.leb_spec (BitLen (g ^ (big2To258 + x) mod P)) (BitLen P)); [|lia].
  reflexivity.
Qed.

(** ** [powmod_big] computes [Zpow_mod] *)

Lemma powmod_big_spec a p m :
  BigZ.to_Z m <> 0 ->
  BigZ.to_Z (powmod_big a p m) = BigZ.to_Z a ^ Z.pos p mod BigZ.to_Z m.
Proof.
  intros Hm. induction p as [q IH|q IH|]; simpl powmod_big.
  - rewrite BigZ.spec_modulo, BigZ.spec_mul, BigZ.spec_modulo, BigZ.spec_mul, IH.
    rewrite Pos2Z.inj_xI.
    replace (2 * Z.pos q + 1) with (Z.pos q + Z.pos q + 1) by lia.
    rewrite !Z.pow_add_r, Z.pow_1_r by lia.
    rewrite <- Z.mul_mod by exact Hm.
    now rewrite Z.mul_mod_idemp_l by exact Hm.
  - rewrite BigZ.spec_modulo, BigZ.spec_mul, IH.
    rewrite Pos2Z.inj_xO.
    replace (2 * Z.pos q) with (Z.pos q + Z.pos q) by lia.
    rewrite Z.pow_add_r by lia.
    now rewrite <- Z.mul_mod by exact Hm.
  - rewrite BigZ.spec_modulo. now rewrite Z.pow_1_r.
Qed.

Lemma bytes_ok_skipn n l : bytes_ok l = true -> bytes_ok (skipn n l) = true.
Proof.
  unfold bytes_ok. rewrite !forallb_forall. intros H x Hx.
  apply H. rewrite <- (firstn_skipn n l). apply in_or_app. now right.
Qed.

Lemma blind_short a x s :
  (length s < 32)%nat -> blind a x s = Err ErrBlindingFailed.
Proof.
  intros H. unfold blind, bind, remap_err, randBigInt, bind, ReadFull.
  cbv beta zeta. change (Z.to_nat (lenPub / 8)) with 32%nat.
  destruct (Nat.leb_spec 32 (length s)); [lia|].
  destruct s; reflexivity.
Qed.

(** Whatever [blind] returns on success is [a ^ (2^258 + x) mod P]. *)
(** Injectivity of [Ok]; [injection] would try to reduce the big powers. *)
Lemma Ok_inj {T : Type} (a b : T) : @Ok T a = Ok b -> a = b.
Proof. intros H. injection H. trivial. Qed.

Lemma blind_inv a x s y s' :
  0 <= x -> bytes_ok s = true -> blind a x s = Ok (y, s') ->
  y = a ^ (big2To258 + x) mod P /\ s' = skipn 32 s.
Proof.
  intros Hx Hs Hb. destruct (Nat.leb_spec 32 (length s)) as [Hl|Hl].
  - rewrite blind_ok in Hb by assumption.
    apply Ok_inj, pair_equal_spec in Hb as [H1 H2]. split; symmetry; assumption.
  - rewrite blind_short in Hb by exact Hl. discriminate.
Qed.

Lemma generatePublicKey_inv x s pub s' :
  0 <= x -> bytes_ok s = true -> generatePublicKey x s = Ok (pub, s') ->
  pub = mkPublicKey (g ^ (big2To258 + x) mod P) /\ s' = skipn 32 s.
Proof.
  intros Hx Hs Hg. destruct (Nat.leb_spec 32 (length s)) as [Hl|Hl].
  - rewrite generatePublicKey_ok in Hg by assumption.
    apply Ok_inj, pair_equal_spec in Hg as [H1 H2]. split; symmetry; assumption.
  - unfold generatePublicKey, bind at 1 in Hg.
    rewrite blind_short in Hg by exact Hl. discriminate.
Qed.

Lemma ReadFull_ok s :
  (32 <= length s)%nat -> ReadFull lenPriv s = Ok (firstn 32 s, skipn 32 s).
Proof.
  intros H. unfold ReadFull. cbv beta zeta. change (Z.to_nat lenPriv) with 32%nat.
  destruct (Nat.leb_spec 32 (length s)); [reflexivity | lia].
Qed.

Lemma two256_lt_P : 2 ^ 256 < P - bigOne.
Proof. unfold P, bigOne. lia. Qed.

(** Every key pair [GenerateKey] returns has [0 < X] and
    [A = g ^ (2^258 + X) mod P]. *)
Lemma GenerateKey_rounds_inv fuel s prv s' :
  bytes_ok s = true -> GenerateKey_rounds fuel s = Ok (prv, s') ->
  0 < X prv /\ A (Pub prv) = g ^ (big2To258 + X prv) mod P.
Proof.
  revert s. induction fuel as [|f IH]; intros s Hs Hg; [discriminate|].
  cbn [GenerateKey_rounds] in Hg. unfold bind at 1 in Hg.
  destruct (Nat.leb_spec 32 (length s)) as [Hl|Hl].
  2:{ unfold ReadFull in Hg. cbv beta zeta in Hg.
      change (Z.to_nat lenPriv) with 32%nat in Hg.
      destruct (Nat.leb_spec 32 (length s)); [lia|]. destruct s; discriminate. }
  rewrite ReadFull_ok in Hg by exact Hl. cbv beta zeta in Hg.
  pose proof (bytes_ok_skipn 32 s Hs) as Hs'.
  destruct (negb (SetBytes (firstn 32 s) >? bigZero)) eqn:E1.
  { exact (IH _ Hs' Hg). }
  destruct (SetBytes (firstn 32 s) >? P - bigOne).
  { exact (IH _ Hs' Hg). }
  apply negb_false_iff, Z.gtb_lt in E1. unfold bigZero in E1.
  unfold bind at 1 in Hg.
  destruct (generatePublicKey (SetBytes (firstn 32 s)) (skipn 32 s))
    as [[pub s1]|e|] eqn:Eg; try discriminate.
  apply generatePublicKey_inv in Eg as [-> _]; [|lia|exact Hs'].
  destruct (negb (Valid _)); [discriminate|].
  unfold ret in Hg. apply Ok_inj, pair_equal_spec in Hg as [<- _].
  cbn [X Pub A]. split; [lia|reflexivity].
Qed.

Lemma GenerateKey_inv s prv s' :
  bytes_ok s = true -> GenerateKey s = Ok (prv, s') ->
  0 < X prv /\ A (Pub prv) = g ^ (big2To258 + X prv) mod P.
Proof. intros Hs Hg. exact (GenerateKey_rounds_inv _ s prv s' Hs Hg). Qed.

(** [GenerateKey] on a reader whose first 32 bytes are an acceptable
    exponent and which has 32 more bytes for the blinding. *)
Lemma GenerateKey_first_round s :
  bytes_ok s = true -> (64 <= length s)%nat -> 0 < SetBytes (firstn 32 s) ->
  GenerateKey s
  = Ok (mkPrivateKey
          (mkPublicKey (g ^ (big2To258 + SetBytes (firstn 32 s)) mod P))
          (SetBytes (firstn 32 s)), skipn 64 s).
Proof.
  intros Hs Hl Hx. unfold GenerateKey. cbn [GenerateKey_rounds].
  unfold bind at 1. rewrite ReadFull_ok by lia. cbv beta zeta.
  pose proof (randBigInt_range s Hs ltac:(lia)) as R.
  pose proof two256_lt_P.
  destruct (Z.gtb_spec (SetBytes (firstn 32 s)) bigZero); [|unfold bigZero in *; lia].
  destruct (Z.gtb_spec (SetBytes (firstn 32 s)) (P - bigOne)); [lia|].
  cbn [negb]. unfold bind at 1.
  rewrite generatePublicKey_ok;
    [| lia | apply bytes_ok_skipn; exact Hs | rewrite length_skipn; lia].
  unfold Valid. cbn [A].
  pose proof (Z.mod_pos_bound (g ^ (big2To258 + SetBytes (firstn 32 s))) P P_pos) as Hm.
  pose proof (BitLen_le_P _ Hm) as Hb.
  destruct (Z.leb_spec (BitLen (g ^ (big2To258 + SetBytes (firstn 32 s)) mod P))
              (BitLen P)); [|lia].
  unfold ret. cbn [negb]. now rewrite skipn_skipn.
Qed.

(** * SharedKey *)

Lemma le_digits_length fuel x k :
  0 <= x < 256 ^ Z.of_nat k -> (length (le_digits fuel x) <= k)%nat.
Proof.
  revert x k. induction fuel as [|f IH]; intros x k Hx; simpl; [lia|].
  destruct (Z.leb_spec x 0); simpl; [lia|].
  destruct k as [|k]; [simpl in Hx; lia|].
  assert (length (le_digits f (x / 256)) <= k)%nat; [|lia].
  apply IH. split; [apply Z.div_pos; lia|].
  apply Z.div_lt_upper_bound; [lia|].
  rewrite Nat2Z.inj_succ, Z.pow_succ_r in Hx by lia. lia.
Qed.

Lemma Bytes_length_le x k :
  0 <= x < 256 ^ Z.of_nat k -> (length (Bytes x) <= k)%nat.
Proof.
  intros Hx. unfold Bytes. rewrite length_rev, Z.abs_eq by lia.
  now apply le_digits_length.
Qed.

Lemma Bytes_length_pos x : 0 < x -> (1 <= length (Bytes x))%nat.
Proof.
  intros Hx. unfold Bytes, BitLen. rewrite length_rev, !Z.abs_eq by lia.
  destruct (Z.eqb_spec x 0); [lia|].
  pose proof (Z.log2_nonneg x).
  replace (Z.to_nat (Z.log2 x + 1)) with (S (Z.to_nat (Z.log2 x))) by lia.
  cbn [le_digits]. destruct (Z.leb_spec x 0); [lia|]. cbn [length]. lia.
Qed.

Lemma P_lt_256_256 : P < 256 ^ Z.of_nat 256.
Proof. apply Z.ltb_lt. vm_compute. reflexivity. Qed.

Lemma SharedKey_inv prv pub n s sk s' :
  0 <= X prv -> bytes_ok s = true -> SharedKey prv pub n s = Ok (sk, s') ->
  sk = firstn (Z.to_nat n) (Bytes (shared_value prv pub)).
Proof.
  intros Hx Hs H. unfold SharedKey in H.
  destruct (negb (Valid pub)); [discriminate|].
  unfold bind at 1 in H.
  destruct (blind (A pub) (X prv) s) as [[y s1]|e|] eqn:Eb; try discriminate.
  apply blind_inv in Eb as [Ey _]; [|exact Hx|exact Hs].
  unfold bind, slice_to in H.
  destruct ((0 <=? n) && (n <=? Z.of_nat (length (Bytes y)))); [|discriminate].
  unfold ret in H.
  destruct (Z.of_nat (length (firstn (Z.to_nat n) (Bytes y))) <? n); [discriminate|].
  apply Ok_inj, pair_equal_spec in H as [<- _].
  unfold shared_value. now rewrite <- Ey.
Qed.

Lemma SharedKey_ok prv pub n s :
  0 <= X prv -> Valid pub = true -> bytes_ok s = true -> (32 <= length s)%nat ->
  0 <= n <= Z.of_nat (length (Bytes (shared_value prv pub))) ->
  SharedKey prv pub n s
  = Ok (firstn (Z.to_nat n) (Bytes (shared_value prv pub)), skipn 32 s).
Proof.
  intros Hx Hv Hs Hl Hn. unfold SharedKey. rewrite Hv. cbn [negb].
  unfold bind at 1. rewrite blind_ok by assumption. fold (shared_value prv pub).
  unfold bind, slice_to.
  destruct (Z.leb_spec 0 n); [|lia].
  destruct (Z.leb_spec n (Z.of_nat (length (Bytes (shared_value prv pub))))); [|lia].
  cbn [andb]. unfold ret.
  rewrite length_firstn.
  destruct (Z.ltb_spec (Z.of_nat (Nat.min (Z.to_nat n)
              (length (Bytes (shared_value prv pub))))) n); [lia|].
  reflexivity.
Qed.

(** A request longer than the big-endian result panics in [s[:size]]. *)
Lemma SharedKey_long_panics prv pub n s :
  0 <= X prv -> Valid pub = true -> bytes_ok s = true -> (32 <= length s)%nat ->
  Z.of_nat (length (Bytes (shared_value prv pub))) < n ->
  SharedKey prv pub n s = Panic.
Proof.
  intros Hx Hv Hs Hl Hn. unfold SharedKey. rewrite Hv. cbn [negb].
  unfold bind at 1. rewrite blind_ok by assumption. fold (shared_value prv pub).
  unfold bind, slice_to.
  destruct (Z.leb_spec n (Z.of_nat (length (Bytes (shared_value prv pub))))); [lia|].
  rewrite andb_false_r. reflexivity.
Qed.

Lemma shared_value_range prv pub : 0 <= shared_value prv pub < P.
Proof. apply Z.mod_pos_bound, P_pos. Qed.

Lemma Valid_mod x : Valid (mkPublicKey (x mod P)) = true.
Proof.
  unfold Valid. cbn [A]. apply Z.leb_le, BitLen_le_P, Z.mod_pos_bound, P_pos.
Qed.


Lemma GenerateKey_reader_x b :
  0 < b < 256 ->
  GenerateKey (reader_x b)
  = Ok (mkPrivateKey (mkPublicKey (g ^ (big2To258 + b) mod P)) b, []).
Proof.
  intros Hb.
  assert (E : SetBytes (firstn 32 (reader_x b)) = b).
  { unfold reader_x. rewrite firstn_app, repeat_length. cbn. lia. }
  rewrite GenerateKey_first_round.
  - rewrite E. reflexivity.
  - unfold reader_x, bytes_ok. rewrite !forallb_app. cbn [forallb].
    assert (Hb' : is_byte b = true) by (apply is_byte_range; lia).
    rewrite Hb'. reflexivity.
  - unfold reader_x. rewrite !length_app, !repeat_length. simpl. lia.
  - lia.
Qed.

Lemma P_big_spec : BigZ.to_Z P_big = P.
Proof. apply BigZ.spec_of_Z. Qed.

(** The shared value of two generated keys is [g ^ (eA * eB) mod P] with
    the effective exponents [eA = 2^258 + XA], [eB = 2^258 + XB]. *)
Lemma shared_value_generated pubA xA xB :
  0 <= xA -> 0 <= xB ->
  shared_value (mkPrivateKey pubA xA) (mkPublicKey (g ^ (big2To258 + xB) mod P))
  = g ^ ((big2To258 + xB) * (big2To258 + xA)) mod P.
Proof.
  intros HA HB. unfold shared_value. cbn [A X].
  assert (0 <= big2To258) by (unfold big2To258; lia).
  rewrite <- Zpower_mod by exact P_pos.
  rewrite <- Z.pow_mul_r by lia. reflexivity.
Qed.

Lemma pow2_mod_P_nonzero k : 0 <= k -> 2 ^ k mod P <> 0.
Proof.
  intros Hk. pattern k. apply Wf_Z.natlike_ind; [| |exact Hk].
  - rewrite Z.pow_0_r. unfold P. rewrite Z.mod_1_l by lia. lia.
  - intros j Hj IH Hz. apply IH.
    apply Z.mod_divide in Hz; [|pose proof P_pos; lia].
    apply Z.mod_divide; [pose proof P_pos; lia|].
    rewrite Z.pow_succ_r in Hz by exact Hj.
    apply (Z.gauss P 2); [exact Hz|]. vm_compute. reflexivity.
Qed.

(** ** C1 *)

(** C1 (code_bug): [blind] is documented as the operation [y = a ^ x mod p],
    but it returns [a ^ (2^258 + x) mod P]: for [a = 2], [x = 1] and a
    draw of 32 zero bytes it returns [2 ^ (2^258 + 1) mod P], which is not
    [2 ^ 1 mod P]. *)
Theorem blind_returns_offset_power :
  blind 2 1 reader_r0 = Ok (2 ^ (big2To258 + 1) mod P, [])
  /\ 2 ^ (big2To258 + 1) mod P <> 2 ^ 1 mod P.
Proof.
  split.
  - rewrite blind_ok; [reflexivity | lia | reflexivity | cbn; lia].
  - intros Heq.
    assert (Hc : BigZ.eqb (powmod_big 2 (Z.to_pos (big2To258 + 1)) P_big) 2
                 = false) by (vm_compute; reflexivity).
    rewrite BigZ.spec_eqb, powmod_big_spec in Hc
      by (rewrite P_big_spec; pose proof P_pos; lia).
    rewrite P_big_spec, Z2Pos.id in Hc by (unfold big2To258; lia).
    change (BigZ.to_Z 2) with 2 in Hc.
    rewrite Heq in Hc. vm_compute in Hc. discriminate.
Qed.

(** ** C2 *)

(** C2: for two key pairs made by [GenerateKey] and any length [n] for
    which both calls succeed, [SharedKey] from A's private key and B's
    public key equals [SharedKey] from B's private key and A's public key,
    whatever bytes the readers deliver. *)
Theorem SharedKey_symmetric sA sB sC sD prvA prvB rA rB n skA skB rC rD :
  bytes_ok sA = true -> bytes_ok sB = true ->
  bytes_ok sC = true -> bytes_ok sD = true ->
  GenerateKey sA = Ok (prvA, rA) -> GenerateKey sB = Ok (prvB, rB) ->
  SharedKey prvA (Pub prvB) n sC = Ok (skA, rC) ->
  SharedKey prvB (Pub prvA) n sD = Ok (skB, rD) ->
  skA = skB.
Proof.
  intros HA HB HC HD GA GB SA SB.
  destruct (GenerateKey_inv _ _ _ HA GA) as [XA EA].
  destruct (GenerateKey_inv _ _ _ HB GB) as [XB EB].
  apply SharedKey_inv in SA; [|lia|exact HC].
  apply SharedKey_inv in SB; [|lia|exact HD].
  subst skA skB.
  destruct prvA as [[a] xA], prvB as [[b] xB]. cbn [Pub A X] in *.
  subst a b.
  rewrite !shared_value_generated by lia.
  now rewrite Z.mul_comm.
Qed.

Lemma GenerateKey_reader_x_prv_of b :
  0 < b < 256 -> GenerateKey (reader_x b) = Ok (prv_of b, []).
Proof. intros Hb. unfold prv_of. now apply GenerateKey_reader_x. Qed.

Lemma shared_value_prv_of_pos xA xB :
  0 <= xA -> 0 <= xB -> 0 < shared_value (prv_of xA) (Pub (prv_of xB)).
Proof.
  intros HA HB. unfold prv_of. cbn [Pub].
  rewrite shared_value_generated by lia.
  assert (0 <= big2To258) by (unfold big2To258; lia).
  pose proof (pow2_mod_P_nonzero ((big2To258 + xB) * (big2To258 + xA))
                ltac:(nia)) as Hnz.
  pose proof (Z.mod_pos_bound (g ^ ((big2To258 + xB) * (big2To258 + xA))) P P_pos).
  unfold g in *. lia.
Qed.

Lemma SharedKey_prv_of_ok xA xB :
  0 < xA < 256 -> 0 < xB < 256 ->
  SharedKey (prv_of xA) (Pub (prv_of xB)) 1 reader_r0
  = Ok (firstn 1 (Bytes (shared_value (prv_of xA) (Pub (prv_of xB)))), []).
Proof.
  intros HA HB.
  pose proof (shared_value_prv_of_pos xA xB ltac:(lia) ltac:(lia)) as Hp.
  pose proof (Bytes_length_pos _ Hp) as L.
  apply SharedKey_ok; [unfold prv_of; cbn; lia | unfold prv_of; apply Valid_mod
                      | reflexivity | cbn; lia | lia].
Qed.

Lemma SharedKey_symmetric_witness :
  exists prvA prvB skA skB,
    GenerateKey (reader_x 1) = Ok (prvA, []) /\
    GenerateKey (reader_x 2) = Ok (prvB, []) /\
    SharedKey prvA (Pub prvB) 1 reader_r0 = Ok (skA, []) /\
    SharedKey prvB (Pub prvA) 1 reader_r0 = Ok (skB, []) /\
    skA = skB.
Proof.
  pose proof (GenerateKey_reader_x_prv_of 1 ltac:(lia)) as GA.
  pose proof (GenerateKey_reader_x_prv_of 2 ltac:(lia)) as GB.
  pose proof (SharedKey_prv_of_ok 1 2 ltac:(lia) ltac:(lia)) as SA.
  pose proof (SharedKey_prv_of_ok 2 1 ltac:(lia) ltac:(lia)) as SB.
  exists (prv_of 1), (prv_of 2),
    (firstn 1 (Bytes (shared_value (prv_of 1) (Pub (prv_of 2))))),
    (firstn 1 (Bytes (shared_value (prv_of 2) (Pub (prv_of 1))))).
  split; [exact GA|]. split; [exact GB|]. split; [exact SA|]. split; [exact SB|].
  exact (SharedKey_symmetric (reader_x 1) (reader_x 2) reader_r0 reader_r0
           (prv_of 1) (prv_of 2) [] [] 1 _ _ [] [] eq_refl eq_refl eq_refl eq_refl
           GA GB SA SB).
Defined.

(** ** C3 *)

(** C3 (code_bug): when the requested size exceeds the length of the
    big-endian shared value, [SharedKey] does not return
    [ErrInvalidSharedKey]: it slices [Bytes()] beyond its length first and
    panics. For the keys generated from secrets 1 and 2 and size 257 (the
    shared value has at most 256 bytes) the outcome is a panic. *)
Theorem SharedKey_short_result_panics :
  GenerateKey (reader_x 1) = Ok (prv_of 1, []) /\
  GenerateKey (reader_x 2) = Ok (prv_of 2, []) /\
  SharedKey (prv_of 1) (Pub (prv_of 2)) 257 reader_r0 = Panic.
Proof.
  split; [apply GenerateKey_reader_x_prv_of; lia|].
  split; [apply GenerateKey_reader_x_prv_of; lia|].
  apply SharedKey_long_panics;
    [unfold prv_of; cbn; lia | unfold prv_of; apply Valid_mod
    | reflexivity | cbn; lia |].
  pose proof (shared_value_range (prv_of 1) (Pub (prv_of 2))) as R.
  pose proof P_lt_256_256.
  pose proof (Bytes_length_le (shared_value (prv_of 1) (Pub (prv_of 2))) 256
                ltac:(lia)).
  lia.
Qed.

(** ** C8 *)

(** C8: for every private key produced by [GenerateKey], importing its
    exported bytes succeeds and gives back the same key (same [X], same
    regenerated [A]), whatever bytes the reader delivers for the blinding
    (it only needs 32 of them). *)
Theorem ImportPrivate_ExportPrivate s prv r s' :
  bytes_ok s = true -> GenerateKey s = Ok (prv, r) ->
  bytes_ok s' = true -> (32 <= length s')%nat ->
  ImportPrivate (ExportPrivate prv) s' = Ok (prv, skipn 32 s').
Proof.
  intros Hs Hg Hs' Hl.
  destruct (GenerateKey_inv _ _ _ Hs Hg) as [HX HA].
  unfold ImportPrivate, ExportPrivate.
  rewrite SetBytes_Bytes by lia.
  unfold bind at 1. rewrite generatePublicKey_ok by (try lia; assumption).
  unfold ret. destruct prv as [[a] x]. cbn [X Pub A] in *.
  now rewrite HA.
Qed.

Lemma ImportPrivate_ExportPrivate_witness :
  GenerateKey (reader_x 1) = Ok (prv_of 1, []) /\
  ImportPrivate (ExportPrivate (prv_of 1)) reader_r0 = Ok (prv_of 1, []).
Proof.
  pose proof (GenerateKey_reader_x_prv_of 1 ltac:(lia)) as G.
  split; [exact G|].
  exact (ImportPrivate_ExportPrivate (reader_x 1) (prv_of 1) [] reader_r0
           eq_refl G eq_refl (le_n 32)).
Defined.

Lemma SetBytes_zeros n : SetBytes (repeat 0 n) = 0.
Proof. unfold SetBytes. induction n as [|n IH]; [reflexivity|]. exact IH. Qed.

Lemma BitLen_P : BitLen P = 2048.
Proof. vm_compute. reflexivity. Qed.

(** ** C9 *)

(** C9 (counterexample): [ImportPublic] accepts the empty byte string and
    a zero byte; both give the public key [A = 0]. *)
Lemma ImportPublic_accepts_zero :
  ImportPublic [] = Ok (mkPublicKey 0) /\ ImportPublic [0] = Ok (mkPublicKey 0).
Proof. split; reflexivity. Qed.

(** C9 (amended): [ImportPublic] rejects exactly the inputs whose value has
    more than [BitLen P = 2048] bits; there is no positivity check, and
    every run of zero bytes (the empty one included) is accepted as [A = 0]. *)
Theorem ImportPublic_only_bitlen_check :
  (forall inp, ImportPublic inp =
     if 2048 <? BitLen (SetBytes inp) then Err ErrInvalidPublicKey
     else Ok (mkPublicKey (SetBytes inp))) /\
  (forall n, ImportPublic (repeat 0 n) = Ok (mkPublicKey 0)).
Proof.
  split.
  - intros inp. unfold ImportPublic, Valid. cbn [A]. rewrite BitLen_P.
    destruct (Z.ltb_spec 2048 (BitLen (SetBytes inp)));
    destruct (Z.leb_spec (BitLen (SetBytes inp)) 2048); try lia; reflexivity.
  - intros n. unfold ImportPublic. rewrite SetBytes_zeros. reflexivity.
Qed.

Lemma firstn_repeat_le (a : Z) k n :
  (k <= n)%nat -> firstn k (repeat a n) = repeat a k.
Proof.
  revert n. induction k as [|k IH]; intros [|n] Hk; cbn; try lia; try reflexivity.
  rewrite IH by lia. reflexivity.
Qed.

Lemma skipn_repeat_sub (a : Z) k n : skipn k (repeat a n) = repeat a (n - k).
Proof.
  revert n. induction k as [|k IH]; intros [|n]; cbn; try reflexivity.
  apply IH.
Qed.

(** The byte width [(P.BitLen()+7)/8] that [InitializeKEK] pads to. *)
Lemma P_width : (BitLen P + 7) / 8 = 256.
Proof. rewrite BitLen_P. reflexivity. Qed.

(** ** C7 *)

(** C7 (code_bug): [zeroPad] is off by one. For every input shorter than
    [outlen] it returns [outlen - len(in) - 1] zero bytes, then the input,
    then one trailing zero byte: the input is not right-aligned and the
    last byte of the result is always 0. *)
Theorem zeroPad_off_by_one inp outlen :
  (length inp < Z.to_nat outlen)%nat ->
  zeroPad inp outlen
  = Ok (repeat 0 (Z.to_nat outlen - length inp - 1) ++ inp ++ [0]).
Proof.
  intros Hl. unfold zeroPad.
  destruct (Z.gtb_spec (Z.of_nat (length inp)) outlen); [lia|].
  destruct (Z.ltb_spec outlen 0); [lia|].
  destruct (Z.ltb_spec (outlen - Z.of_nat (length inp) - 1) 0); [lia|].
  f_equal. unfold copy_at.
  set (N := Z.to_nat outlen). set (L := length inp).
  replace (Z.to_nat (outlen - Z.of_nat L - 1)) with (N - L - 1)%nat by lia.
  rewrite repeat_length.
  replace (Nat.min (N - (N - L - 1)) L) with L by lia.
  rewrite firstn_repeat_le by lia.
  replace (firstn L inp) with inp by (symmetry; apply firstn_all).
  rewrite skipn_repeat_sub.
  replace (N - (N - L - 1 + L))%nat with 1%nat by lia. reflexivity.
Qed.

Lemma zeroPad_off_by_one_witness :
  (length [1] < Z.to_nat ((BitLen P + 7) / 8))%nat /\
  zeroPad [1] ((BitLen P + 7) / 8) = Ok (repeat 0 254 ++ [1] ++ [0]).
Proof.
  assert (Hl : (length [1] < Z.to_nat ((BitLen P + 7) / 8))%nat)
    by (rewrite P_width; cbn; lia).
  split; [exact Hl|].
  rewrite (zeroPad_off_by_one [1] ((BitLen P + 7) / 8) Hl).
  rewrite P_width. reflexivity.
Defined.

Lemma SharedKey_length prv pub n s sk s' :
  0 <= n -> SharedKey prv pub n s = Ok (sk, s') -> length sk = Z.to_nat n.
Proof.
  intros Hn H. unfold SharedKey in H.
  destruct (negb (Valid pub)); [discriminate|].
  unfold bind at 1 in H.
  destruct (blind (A pub) (X prv) s) as [[y s1]|e|]; try discriminate.
  unfold bind, slice_to in H.
  destruct (Z.leb_spec 0 n), (Z.leb_spec n (Z.of_nat (length (Bytes y))));
    cbn [andb] in H; try discriminate; try lia.
  unfold ret in H.
  destruct (_ <? n); [discriminate|].
  inversion H; subst. rewrite length_firstn. lia.
Qed.

Lemma zeroPad_long_panics inp outlen :
  0 <= outlen <= Z.of_nat (length inp) -> zeroPad inp outlen = Panic.
Proof.
  intros H. unfold zeroPad.
  destruct (Z.ltb_spec outlen 0); [lia|].
  destruct (Z.gtb_spec (Z.of_nat (length inp)) outlen).
  - destruct (Z.ltb_spec (outlen - outlen - 1) 0); [reflexivity | lia].
  - destruct (Z.ltb_spec (outlen - Z.of_nat (length inp) - 1) 0);
      [reflexivity | lia].
Qed.

Lemma shared_value_m1 : shared_value (prv_of 1) pub_m1 = P - 1.
Proof.
  assert (Hc : BigZ.eqb (powmod_big (BigZ.of_Z (P - 1)) (Z.to_pos (big2To258 + 1))
                           P_big) (BigZ.of_Z (P - 1)) = true)
    by (vm_compute; reflexivity).
  rewrite BigZ.spec_eqb, powmod_big_spec in Hc
    by (rewrite P_big_spec; pose proof P_pos; lia).
  rewrite P_big_spec, Z2Pos.id, !BigZ.spec_of_Z in Hc by (unfold big2To258; lia).
  apply Z.eqb_eq in Hc.
  unfold shared_value, prv_of, pub_m1. cbn [A X]. exact Hc.
Qed.

Lemma Bytes_P_m1_length : length (Bytes (P - 1)) = 256%nat.
Proof. vm_compute. reflexivity. Qed.

(** ** C10 *)

(** C10: [zeroPad] is not total: whenever [0 <= outlen <= len(in)] it
    panics (the slice start [outlen - inLen - 1] is [-1]). This is reached
    from [InitializeKEK]: with a well-formed [ainfo], a [SuppPubInfo] whose
    key length field is 256 (the byte width of [P]) and a successful
    [SharedKey] of 256 bytes, [InitializeKEK] panics instead of returning
    [nil]. *)
Theorem zeroPad_InitializeKEK_panic inp outlen prv pub params ainfo hh hw rand zz r :
  0 <= outlen <= Z.of_nat (length inp) ->
  match ainfo with Some a => length a = 64%nat | None => True end ->
  read_be32 (SuppPubInfo params) = Some 256 ->
  SharedKey prv pub 256 rand = Ok (zz, r) ->
  zeroPad inp outlen = Panic /\ InitializeKEK prv pub params ainfo hh hw rand = Panic.
Proof.
  intros Hout Hai Hread HSK. split; [now apply zeroPad_long_panics|].
  assert (Hbad : match ainfo with
                 | Some a => negb (length a =? 64)%nat | None => false end = false)
    by (destruct ainfo; [rewrite Hai|]; reflexivity).
  pose proof (SharedKey_length prv pub 256 rand zz r ltac:(lia) HSK) as Hlen.
  unfold InitializeKEK. cbv zeta. rewrite Hbad, Hread.
  replace (if 256 >=? 2 ^ 31 then 256 - 2 ^ 32 else 256) with 256 by reflexivity.
  rewrite HSK. cbv beta iota.
  rewrite P_width, zeroPad_long_panics by (rewrite Hlen; lia).
  reflexivity.
Qed.

Lemma zeroPad_InitializeKEK_panic_witness :
  InitializeKEK (prv_of 1) pub_m1 params256 None toy_hash [] reader_r0 = Panic.
Proof.
  assert (HSK : SharedKey (prv_of 1) pub_m1 256 reader_r0
                = Ok (firstn 256 (Bytes (P - 1)), [])).
  { rewrite SharedKey_ok.
    - rewrite shared_value_m1. reflexivity.
    - unfold prv_of. cbn. lia.
    - vm_compute. reflexivity.
    - reflexivity.
    - cbn. lia.
    - rewrite shared_value_m1, Bytes_P_m1_length. lia. }
  assert (Hlen : 0 <= 256 <= Z.of_nat (length (firstn 256 (Bytes (P - 1)))))
    by (rewrite length_firstn, Bytes_P_m1_length; cbn; lia).
  exact (proj2 (zeroPad_InitializeKEK_panic _ 256 (prv_of 1) pub_m1 params256 None
                  toy_hash [] reader_r0 _ [] Hlen I eq_refl HSK)).
Defined.

(** ** The counter of the KDF *)

Lemma ctr_ok4 b0 b1 b2 b3 :
  ctr_ok [b0; b1; b2; b3] = true <->
  0 <= b0 < 256 /\ 0 <= b1 < 256 /\ 0 <= b2 < 256 /\ 0 <= b3 < 256.
Proof.
  unfold ctr_ok, bytes_ok. cbn [length Nat.eqb forallb andb].
  rewrite !andb_true_iff, !is_byte_range. tauto.
Qed.

Lemma ctr_ok_shape c :
  ctr_ok c = true -> exists b0 b1 b2 b3, c = [b0; b1; b2; b3].
Proof.
  unfold ctr_ok. intros H. apply andb_true_iff in H as [H _].
  destruct c as [|b0 [|b1 [|b2 [|b3 [|x rest]]]]]; try discriminate.
  eauto.
Qed.

Lemma SetBytes4 b0 b1 b2 b3 :
  SetBytes [b0; b1; b2; b3] = b0 * 16777216 + b1 * 65536 + b2 * 256 + b3.
Proof. unfold SetBytes. cbn [fold_left]. ring. Qed.

Lemma mod256_succ b : 0 <= b < 256 -> (b + 1) mod 256 = if b =? 255 then 0 else b + 1.
Proof.
  intros Hb. destruct (Z.eqb_spec b 255) as [->|Hn]; [reflexivity|].
  apply Z.mod_small. lia.
Qed.

(** [incCounter] adds one to the big-endian value of a four-byte counter,
    modulo [2^32]. *)
Lemma incCounter_ok c :
  ctr_ok c = true ->
  exists c', incCounter c = Some c' /\ ctr_ok c' = true /\
             SetBytes c' = (SetBytes c + 1) mod 2 ^ 32.
Proof.
  intros Hc. destruct (ctr_ok_shape c Hc) as (b0 & b1 & b2 & b3 & ->).
  apply ctr_ok4 in Hc as (H0 & H1 & H2 & H3).
  unfold incCounter. cbv beta iota zeta.
  rewrite (mod256_succ b3), (mod256_succ b2), (mod256_succ b1), (mod256_succ b0)
    by assumption.
  destruct (Z.eqb_spec b3 255); cbn [negb Z.eqb];
    [|destruct (Z.eqb_spec (b3 + 1) 0); [lia|]; cbn [negb]].
  - subst b3. destruct (Z.eqb_spec b2 255); cbn [negb Z.eqb];
      [|destruct (Z.eqb_spec (b2 + 1) 0); [lia|]; cbn [negb]].
    + subst b2. destruct (Z.eqb_spec b1 255); cbn [negb Z.eqb];
        [|destruct (Z.eqb_spec (b1 + 1) 0); [lia|]; cbn [negb]].
      * subst b1. destruct (Z.eqb_spec b0 255).
        -- subst b0. eexists; split; [reflexivity|]. split; reflexivity.
        -- eexists; split; [reflexivity|].
           rewrite ctr_ok4, !SetBytes4. split; [lia|].
           rewrite Z.mod_small; lia.
      * eexists; split; [reflexivity|].
        rewrite ctr_ok4, !SetBytes4. split; [lia|].
        rewrite Z.mod_small; lia.
    + eexists; split; [reflexivity|].
      rewrite ctr_ok4, !SetBytes4. split; [lia|].
      rewrite Z.mod_small; lia.
  - eexists; split; [reflexivity|].
    rewrite ctr_ok4, !SetBytes4. split; [lia|].
    rewrite Z.mod_small; lia.
Qed.

Lemma inc_iter_ok n : forall c,
  ctr_ok c = true ->
  exists c', inc_iter n c = Some c' /\ ctr_ok c' = true /\
             SetBytes c' = (SetBytes c + Z.of_nat n) mod 2 ^ 32.
Proof.
  induction n as [|n IH]; intros c Hc.
  - exists c. split; [reflexivity|]. split; [exact Hc|].
    destruct (ctr_ok_shape c Hc) as (b0 & b1 & b2 & b3 & ->).
    apply ctr_ok4 in Hc. rewrite SetBytes4, Z.add_0_r, Z.mod_small; lia.
  - destruct (incCounter_ok c Hc) as (c1 & E1 & H1 & V1).
    destruct (IH c1 H1) as (c' & E' & H' & V').
    exists c'. cbn [inc_iter]. rewrite E1. split; [exact E'|]. split; [exact H'|].
    rewrite V', V1, Zplus_mod_idemp_l. f_equal. lia.
Qed.

Lemma ctr_range c : ctr_ok c = true -> 0 <= SetBytes c < 2 ^ 32.
Proof.
  intros Hc. destruct (ctr_ok_shape c Hc) as (b0 & b1 & b2 & b3 & ->).
  apply ctr_ok4 in Hc. rewrite SetBytes4. lia.
Qed.


(** ** [copy] *)

Lemma length_copy_at dst i src : length (copy_at dst i src) = length dst.
Proof. unfold copy_at. rewrite !length_app, length_firstn, length_firstn, length_skipn. lia. Qed.

Lemma nth_copy_at_lt dst i src j :
  (j < i)%nat -> (i <= length dst)%nat -> nth j (copy_at dst i src) 0 = nth j dst 0.
Proof.
  intros Hj Hi. unfold copy_at.
  rewrite app_nth1 by (rewrite length_firstn; lia).
  rewrite nth_firstn. destruct (Nat.ltb_spec j i); [reflexivity | lia].
Qed.

Lemma nth_copy_at_in dst i src j :
  (i <= j)%nat -> (j < i + length src)%nat -> (j < length dst)%nat ->
  nth j (copy_at dst i src) 0 = nth (j - i) src 0.
Proof.
  intros H1 H2 H3. unfold copy_at.
  rewrite app_nth2 by (rewrite length_firstn; lia).
  rewrite length_firstn. replace (Nat.min i (length dst)) with i by lia.
  rewrite app_nth1 by (rewrite length_firstn; lia).
  rewrite nth_firstn. destruct (Nat.ltb_spec (j - i) (Nat.min (length dst - i) (length src)));
    [reflexivity | lia].
Qed.

(** ** The CEK loop *)

Lemma nblocks_zero s : (0 < s)%nat -> nblocks 0 s = 0%nat.
Proof. intros Hs. unfold nblocks. apply Nat.div_small. lia. Qed.

Lemma nblocks_step k s :
  (0 < s)%nat -> (0 < k)%nat -> nblocks k s = S (nblocks (k - s) s).
Proof.
  intros Hs Hk. unfold nblocks.
  replace (k + s - 1)%nat with (k - 1 + 1 * s)%nat by lia.
  rewrite Nat.div_add by lia.
  destruct (Nat.leb_spec s k).
  - replace (k - s + s - 1)%nat with (k - 1)%nat by lia. lia.
  - replace (k - s + s - 1)%nat with (s - 1)%nat by lia.
    rewrite (Nat.div_small (s - 1)), (Nat.div_small (k - 1)) by lia. lia.
Qed.

Section Loop.

Variables (zz oi : list Z) (hh : Hash) (keylen : nat).

Let D := Sum hh (zz ++ oi).
Let s := Size hh.

Lemma cek_loop_spec fuel : forall i key ctr,
  ctr_ok ctr = true -> length key = keylen -> (keylen <= i + fuel * s)%nat ->
  exists key' ctr',
    cek_loop fuel zz oi hh keylen i key [] ctr = Ok (key', [], ctr') /\
    length key' = keylen /\
    (forall j, (j < i)%nat -> nth j key' 0 = nth j key 0) /\
    (forall j, (i <= j < keylen)%nat -> nth j key' 0 = nth ((j - i) mod s) D 0) /\
    inc_iter (nblocks (keylen - i) s) ctr = Some ctr'.
Proof.
  assert (Hs : (0 < s)%nat) by exact (Size_pos hh).
  assert (HD : length D = s) by exact (Sum_length hh _).
  induction fuel as [|f IH]; intros i key ctr Hc Hk Hf.
  - exists key, ctr. split; [reflexivity|]. split; [exact Hk|].
    split; [reflexivity|]. split; [intros j Hj; lia|].
    replace (keylen - i)%nat with 0%nat by lia. rewrite nblocks_zero by lia.
    reflexivity.
  - cbn [cek_loop]. destruct (Nat.ltb_spec i keylen) as [Hi|Hi].
    + destruct (incCounter_ok ctr Hc) as (ctr1 & E1 & H1 & _). rewrite E1.
      rewrite app_nil_l. fold D. fold s.
      set (key1 := copy_at key i D).
      assert (L1 : length key1 = keylen) by (unfold key1; rewrite length_copy_at; exact Hk).
      rewrite Nat.mul_succ_l in Hf.
      destruct (IH (i + s)%nat key1 ctr1 H1 L1 ltac:(lia))
        as (key' & ctr' & E & L' & Lo & Hi' & Ei).
      exists key', ctr'. split; [exact E|]. split; [exact L'|]. split.
      * intros j Hj. rewrite Lo by lia. unfold key1.
        apply nth_copy_at_lt; lia.
      * split.
        -- intros j Hj. destruct (Nat.ltb_spec j (i + s)).
           ++ rewrite Lo by lia. unfold key1.
              rewrite nth_copy_at_in by lia.
              rewrite Nat.mod_small by lia. reflexivity.
           ++ rewrite Hi' by lia. f_equal.
              replace (j - i)%nat with (j - (i + s) + 1 * s)%nat by lia.
              now rewrite Nat.Div0.mod_add.
        -- rewrite (nblocks_step (keylen - i)) by lia. cbn [inc_iter].
           rewrite E1. replace (keylen - i - s)%nat with (keylen - (i + s))%nat by lia.
           exact Ei.
    + exists key, ctr. split; [reflexivity|]. split; [exact Hk|].
      split; [reflexivity|]. split; [intros j Hj; lia|].
      replace (keylen - i)%nat with 0%nat by lia. rewrite nblocks_zero by lia.
      reflexivity.
Qed.

End Loop.

Lemma with_counter_keylen kek c b : KeyLen (with_counter kek c b) = KeyLen kek.
Proof. reflexivity. Qed.

Lemma with_counter_twice kek c b c' b' :
  with_counter (with_counter kek c b) c' b' = with_counter kek c' b'.
Proof. reflexivity. Qed.

Lemma with_counter_same kek :
  hbuf kek = [] ->
  with_counter kek (counter (ParamsKeySpecificInfo (Params kek))) [] = kek.
Proof. destruct kek as [zz [[alg c] pa sp] hh b]. cbn. intros ->. reflexivity. Qed.

(** One successful [CEK] call: the key is the single digest
    [Sum (ZZ ++ otherInfo)] repeated block after block and truncated, the
    counter moves by [kek_blocks kek], the hash state is reset. *)
Lemma CEK_spec marshal kek oi :
  KeyLen kek <> 0 -> marshal (Params kek) = Some oi -> ctr_ok (kek_counter kek) = true ->
  exists key ctr',
    CEK marshal (Some kek) = Ok (key, with_counter kek ctr' []) /\
    length key = Z.to_nat (KeyLen kek) /\
    (forall j, (j < Z.to_nat (KeyLen kek))%nat ->
       nth j key 0 = nth (j mod Size (h kek)) (Sum (h kek) (ZZ kek ++ oi)) 0) /\
    inc_iter (kek_blocks kek) (kek_counter kek) = Some ctr'.
Proof.
  intros Hk Hm Hc. unfold CEK. cbv zeta.
  destruct (Z.eqb_spec (KeyLen kek) 0) as [E0|_]; [contradiction|].
  unfold marshalKEKParams. rewrite Hm.
  set (n := Z.to_nat (KeyLen kek)).
  pose proof (Size_pos (h kek)).
  destruct (cek_loop_spec (ZZ kek) oi (h kek) n n 0 (repeat 0 n) (kek_counter kek) Hc
              (repeat_length _ _) ltac:(nia))
    as (key' & ctr' & E & L & _ & Hin & Ei).
  fold (kek_counter kek). rewrite E.
  exists key', ctr'. split; [|split; [|split]].
  - rewrite <- L, firstn_all. reflexivity.
  - exact L.
  - intros j Hj. rewrite Hin by lia. now rewrite Nat.sub_0_r.
  - unfold kek_blocks. fold n. now rewrite Nat.sub_0_r in Ei.
Qed.

Lemma CEK_inv marshal kek key kek1 :
  ctr_ok (kek_counter kek) = true -> CEK marshal (Some kek) = Ok (key, kek1) ->
  exists oi ctr',
    KeyLen kek <> 0 /\ marshal (Params kek) = Some oi /\
    kek1 = with_counter kek ctr' [] /\
    length key = Z.to_nat (KeyLen kek) /\
    (forall j, (j < Z.to_nat (KeyLen kek))%nat ->
       nth j key 0 = nth (j mod Size (h kek)) (Sum (h kek) (ZZ kek ++ oi)) 0) /\
    inc_iter (kek_blocks kek) (kek_counter kek) = Some ctr'.
Proof.
  intros Hc H.
  assert (Hk : KeyLen kek <> 0).
  { intros E. unfold CEK in H. cbv zeta in H. rewrite E in H. discriminate. }
  destruct (marshal (Params kek)) as [oi|] eqn:Hm.
  2:{ unfold CEK, marshalKEKParams in H. cbv zeta in H. rewrite Hm in H.
      destruct (KeyLen kek =? 0); discriminate. }
  destruct (CEK_spec marshal kek oi Hk Hm Hc) as (key' & ctr' & E & L & N & I).
  rewrite E in H. inversion H; subst.
  exists oi, ctr'. repeat split; auto.
Qed.

Lemma inc_iter_det n c c1 c2 : inc_iter n c = Some c1 -> inc_iter n c = Some c2 -> c1 = c2.
Proof. intros -> H. now inversion H. Qed.

Lemma CEK_counter_step marshal kek key kek1 :
  ctr_ok (kek_counter kek) = true -> CEK marshal (Some kek) = Ok (key, kek1) ->
  kek1 = with_counter kek (kek_counter kek1) [] /\
  ctr_ok (kek_counter kek1) = true /\
  SetBytes (kek_counter kek1)
  = (SetBytes (kek_counter kek) + Z.of_nat (kek_blocks kek)) mod 2 ^ 32.
Proof.
  intros Hc H.
  destruct (CEK_inv marshal kek key kek1 Hc H) as (oi & c1 & _ & _ & -> & _ & _ & I).
  destruct (inc_iter_ok (kek_blocks kek) (kek_counter kek) Hc) as (c' & E' & H' & V').
  rewrite (inc_iter_det _ _ _ _ I E'). auto.
Qed.


Lemma CEK_seq_inv marshal m : forall kek keys kek',
  ctr_ok (kek_counter kek) = true -> hbuf kek = [] ->
  CEK_seq marshal m kek = Ok (keys, kek') ->
  kek' = with_counter kek (kek_counter kek') [] /\
  ctr_ok (kek_counter kek') = true /\
  SetBytes (kek_counter kek')
  = (SetBytes (kek_counter kek) + Z.of_nat m * Z.of_nat (kek_blocks kek)) mod 2 ^ 32.
Proof.
  induction m as [|m IH]; intros kek keys kek' Hc Hb H; cbn [CEK_seq] in H.
  - inversion H; subst. rewrite with_counter_same by exact Hb.
    split; [reflexivity|]. split; [exact Hc|].
    pose proof (ctr_range _ Hc). rewrite Z.mod_small; lia.
  - destruct (CEK marshal (Some kek)) as [[key k1]|e|] eqn:Ec; try discriminate.
    destruct (CEK_seq marshal m k1) as [[ks k2]|e|] eqn:Es; try discriminate.
    inversion H; subst.
    destruct (CEK_counter_step marshal kek key k1 Hc Ec) as (E1 & C1 & V1).
    assert (Hb1 : hbuf k1 = []) by (rewrite E1; reflexivity).
    destruct (IH k1 _ _ C1 Hb1 Es) as (E2 & C2 & V2).
    split; [rewrite E2, E1; reflexivity|]. split; [exact C2|].
    rewrite V2, V1, Zplus_mod_idemp_l.
    replace (kek_blocks k1) with (kek_blocks kek) by (rewrite E1; reflexivity).
    f_equal. lia.
Qed.

Lemma CEK_seq_ok marshal m : forall kek,
  KeyLen kek <> 0 -> (forall p, marshal p <> None) -> ctr_ok (kek_counter kek) = true ->
  exists keys kek', CEK_seq marshal m kek = Ok (keys, kek').
Proof.
  induction m as [|m IH]; intros kek Hk Hm Hc; cbn [CEK_seq]; [eauto|].
  destruct (marshal (Params kek)) as [oi|] eqn:Eo; [|now destruct (Hm (Params kek))].
  destruct (CEK_spec marshal kek oi Hk Eo Hc) as (key & c1 & E & _ & _ & I).
  destruct (inc_iter_ok (kek_blocks kek) _ Hc) as (c' & E' & H' & _).
  rewrite (inc_iter_det _ _ _ _ I E') in E. rewrite E.
  destruct (IH (with_counter kek c' []) Hk Hm H') as (ks & k2 & Es).
  rewrite Es. eauto.
Qed.



Lemma nblocks_one n s :
  (0 < s)%nat -> nblocks n s = 1%nat <-> (0 < n <= s)%nat.
Proof.
  intros Hs. destruct n as [|n].
  - rewrite nblocks_zero by exact Hs. lia.
  - rewrite (nblocks_step (S n) s) by lia. split.
    + intros E. destruct (Nat.eq_dec (S n - s) 0); [lia|]. exfalso.
      rewrite (nblocks_step (S n - s) s) in E by lia. discriminate.
    + intros H. replace (S n - s)%nat with 0%nat by lia.
      now rewrite nblocks_zero.
Qed.

Lemma kek48_keylen : KeyLen kek48 <> 0.
Proof. vm_compute. discriminate. Qed.

Lemma kek48_blocks : kek_blocks kek48 = 2%nat.
Proof. vm_compute. reflexivity. Qed.

Lemma toy_marshal_total p : toy_marshal p <> None.
Proof. discriminate. Qed.



(** ** C4 *)

(** C4 (code_bug): [CEK] serializes the parameters once, before its loop,
    so every hash block of one derivation is the digest of the same bytes
    [ZZ ++ otherInfo], where [otherInfo] carries the counter as it was
    before the call. Byte [j] of the key is byte [j mod hLen] of that one
    digest, and each block repeats the previous one. *)
Theorem CEK_blocks_share_otherInfo marshal kek key kek1 oi :
  ctr_ok (kek_counter kek) = true -> marshal (Params kek) = Some oi ->
  CEK marshal (Some kek) = Ok (key, kek1) ->
  length key = Z.to_nat (KeyLen kek) /\
  (forall j, (j < length key)%nat ->
     nth j key 0 = nth (j mod Size (h kek)) (Sum (h kek) (ZZ kek ++ oi)) 0) /\
  (forall j, (Size (h kek) <= j < length key)%nat ->
     nth j key 0 = nth (j - Size (h kek)) key 0).
Proof.
  intros Hc Hm H.
  destruct (CEK_inv marshal kek key kek1 Hc H) as (oi' & c1 & _ & Hm' & _ & L & N & _).
  rewrite Hm in Hm'. injection Hm' as <-.
  pose proof (Size_pos (h kek)) as Hs.
  split; [exact L|]. split.
  - intros j Hj. apply N. lia.
  - intros j Hj. rewrite !N by lia. f_equal.
    replace j with (j - Size (h kek) + 1 * Size (h kek))%nat at 1 by lia.
    apply Nat.Div0.mod_add.
Qed.

Lemma CEK_blocks_share_otherInfo_witness :
  exists key kek1,
    CEK toy_marshal (Some kek48) = Ok (key, kek1) /\ length key = 48%nat /\
    (forall j, (32 <= j < 48)%nat -> nth j key 0 = nth (j - 32) key 0).
Proof.
  destruct (CEK_spec toy_marshal kek48 _ kek48_keylen eq_refl eq_refl)
    as (key & c1 & E & _ & _ & _).
  destruct (CEK_blocks_share_otherInfo toy_marshal kek48 key _ _ eq_refl eq_refl E)
    as (L & _ & B).
  exists key, (with_counter kek48 c1 []). split; [exact E|].
  assert (L48 : length key = 48%nat) by (rewrite L; reflexivity).
  split; [exact L48|].
  intros j Hj. apply B. rewrite L48. exact Hj.
Defined.

(** ** C6 *)

(** C6 (counterexample): for the 48-byte key of [KEKAES128CBCHMACSHA256]
    and a 32-byte hash, one [CEK] call moves the counter from 1 to 3. *)
Lemma CEK_counter_moves_by_two :
  match CEK toy_marshal (Some kek48) with
  | Ok (_, kek1) => kek_counter kek48 = [0; 0; 0; 1] /\ kek_counter kek1 = [0; 0; 0; 3]
  | _ => False
  end.
Proof. vm_compute. split; reflexivity. Qed.

(** C6 (amended): a successful [CEK] call moves the four-byte big-endian
    counter by the number of hash blocks it computes,
    [ceil(keylen / hLen)], modulo [2^32]; that number is 1 exactly when
    [0 < keylen <= hLen]. *)
Theorem CEK_counter_advance marshal kek key kek1 :
  ctr_ok (kek_counter kek) = true -> CEK marshal (Some kek) = Ok (key, kek1) ->
  ctr_ok (kek_counter kek1) = true /\
  SetBytes (kek_counter kek1)
  = (SetBytes (kek_counter kek) + Z.of_nat (kek_blocks kek)) mod 2 ^ 32 /\
  (kek_blocks kek = 1%nat <-> (0 < Z.to_nat (KeyLen kek) <= Size (h kek))%nat).
Proof.
  intros Hc H.
  destruct (CEK_counter_step marshal kek key kek1 Hc H) as (_ & C1 & V1).
  split; [exact C1|]. split; [exact V1|].
  apply nblocks_one, Size_pos.
Qed.

Lemma CEK_counter_advance_witness :
  exists key kek1,
    CEK toy_marshal (Some kek48) = Ok (key, kek1) /\
    SetBytes (kek_counter kek1) = 3 /\ kek_blocks kek48 <> 1%nat.
Proof.
  destruct (CEK_spec toy_marshal kek48 _ kek48_keylen eq_refl eq_refl)
    as (key & c1 & E & _ & _ & _).
  destruct (CEK_counter_advance toy_marshal kek48 key _ eq_refl E) as (_ & V & _).
  exists key, (with_counter kek48 c1 []). split; [exact E|].
  rewrite V, kek48_blocks. split; [reflexivity | discriminate].
Defined.

(** ** C5 *)




(** * Further properties of the code *)

(** ** Byte strings and big integers *)

Lemma SetBytes_cons b t :
  SetBytes (b :: t) = b * 256 ^ Z.of_nat (length t) + SetBytes t.
Proof. unfold SetBytes at 1. cbn [fold_left]. rewrite SetBytes_acc. ring. Qed.

Lemma SetBytes_snoc l b : SetBytes (l ++ [b]) = SetBytes l * 256 + b.
Proof. unfold SetBytes. now rewrite fold_left_app. Qed.

Lemma SetBytes_strip0 l : SetBytes (strip0 l) = SetBytes l.
Proof.
  induction l as [|b t IH]; [reflexivity|]. cbn [strip0].
  destruct (Z.eqb_spec b 0) as [->|_]; [|reflexivity].
  rewrite SetBytes_cons, IH. ring.
Qed.

Lemma strip0_bytes_ok l : bytes_ok l = true -> bytes_ok (strip0 l) = true.
Proof.
  unfold bytes_ok. induction l as [|b t IH]; intros H; [reflexivity|].
  cbn [strip0]. cbn [forallb] in H. apply andb_true_iff in H as [Hb Ht].
  destruct (b =? 0); [exact (IH Ht)|]. cbn [forallb]. now rewrite Hb, Ht.
Qed.

Lemma strip0_head l : strip0 l = [] \/ hd 0 (strip0 l) <> 0.
Proof.
  induction l as [|b t IH]; [now left|]. cbn [strip0].
  destruct (Z.eqb_spec b 0); [exact IH|]. right. exact n.
Qed.

Lemma bytes_ok_snoc l b :
  bytes_ok (l ++ [b]) = true -> bytes_ok l = true /\ 0 <= b < 256.
Proof.
  unfold bytes_ok. rewrite forallb_app. intros H.
  apply andb_true_iff in H as [Hl Hb]. cbn [forallb] in Hb.
  rewrite andb_true_r, is_byte_range in Hb. auto.
Qed.

Lemma SetBytes_lead l :
  bytes_ok l = true -> l <> [] -> hd 0 l <> 0 ->
  256 ^ Z.of_nat (length l - 1) <= SetBytes l.
Proof.
  intros Hok Hne Hhd. destruct l as [|b t]; [contradiction|].
  cbn [hd length] in *. replace (S (length t) - 1)%nat with (length t) by lia.
  unfold bytes_ok in Hok. cbn [forallb] in Hok.
  apply andb_true_iff in Hok as [Hb Ht]. apply is_byte_range in Hb.
  pose proof (SetBytes_nonneg t Ht).
  pose proof (Z.pow_pos_nonneg 256 (Z.of_nat (length t)) ltac:(lia) ltac:(lia)).
  rewrite SetBytes_cons. nia.
Qed.

Lemma le_digits_SetBytes l :
  bytes_ok l = true -> (l = [] \/ hd 0 l <> 0) ->
  forall f, (length l <= f)%nat -> le_digits f (SetBytes l) = rev l.
Proof.
  induction l as [|b l IH] using rev_ind; intros Hok Hhd f Hf.
  - destruct f; reflexivity.
  - apply bytes_ok_snoc in Hok as [Hl Hb].
    rewrite length_app in Hf. cbn [length] in Hf.
    destruct f as [|f]; [lia|].
    assert (Hhd' : l = [] \/ hd 0 l <> 0).
    { destruct l as [|c t]; [now left|]. right.
      destruct Hhd as [Hc|Hc]; [discriminate|exact Hc]. }
    assert (Hpos : 0 < SetBytes l * 256 + b).
    { destruct l as [|c t].
      - destruct Hhd as [Hc|Hc]; [discriminate|]. cbn in Hc |- *. lia.
      - destruct Hhd' as [Hc|Hc]; [discriminate|].
        pose proof (SetBytes_lead (c :: t) Hl ltac:(discriminate) Hc).
        pose proof (Z.pow_pos_nonneg 256 (Z.of_nat (length (c :: t) - 1))
                      ltac:(lia) ltac:(lia)).
        lia. }
    rewrite SetBytes_snoc. cbn [le_digits].
    destruct (Z.leb_spec (SetBytes l * 256 + b) 0); [lia|].
    rewrite rev_app_distr. cbn [rev app].
    replace ((SetBytes l * 256 + b) mod 256) with b.
    2:{ rewrite Z.add_comm, Z.mod_add by lia. symmetry. apply Z.mod_small. lia. }
    replace ((SetBytes l * 256 + b) / 256) with (SetBytes l).
    2:{ rewrite Z.add_comm, Z.div_add by lia. rewrite Z.div_small by lia. lia. }
    f_equal. apply IH; [exact Hl | exact Hhd' | lia].
Qed.

Lemma BitLen_SetBytes_len l :
  bytes_ok l = true -> (l = [] \/ hd 0 l <> 0) ->
  (length l <= Z.to_nat (BitLen (SetBytes l)))%nat.
Proof.
  intros Hok Hhd. destruct Hhd as [->|Hhd]; [cbn; lia|].
  destruct l as [|b t]; [cbn in Hhd; lia|].
  pose proof (SetBytes_lead (b :: t) Hok ltac:(discriminate) Hhd) as Hl.
  cbn [length] in *. replace (S (length t) - 1)%nat with (length t) in Hl by lia.
  set (k := Z.of_nat (length t)) in *.
  assert (E : 256 ^ k = 2 ^ (8 * k)) by (rewrite Z.pow_mul_r by lia; reflexivity).
  rewrite E in Hl.
  pose proof (Z.pow_pos_nonneg 2 (8 * k) ltac:(lia) ltac:(lia)).
  unfold BitLen. destruct (Z.eqb_spec (SetBytes (b :: t)) 0); [lia|].
  rewrite Z.abs_eq by lia.
  pose proof (Z.log2_le_mono _ _ Hl) as HL. rewrite Z.log2_pow2 in HL by lia.
  lia.
Qed.

(** [x.Bytes()] of [SetBytes(l)] gives [l] back when [l] has no leading zero. *)
Lemma Bytes_SetBytes l :
  bytes_ok l = true -> (l = [] \/ hd 0 l <> 0) -> Bytes (SetBytes l) = l.
Proof.
  intros Hok Hhd. unfold Bytes. rewrite Z.abs_eq by (apply SetBytes_nonneg; exact Hok).
  rewrite le_digits_SetBytes by (try exact Hok; try exact Hhd;
                                 apply BitLen_SetBytes_len; assumption).
  apply rev_involutive.
Qed.

Lemma Bytes_SetBytes_strip l : bytes_ok l = true -> Bytes (SetBytes l) = strip0 l.
Proof.
  intros Hok. rewrite <- SetBytes_strip0.
  apply Bytes_SetBytes; [apply strip0_bytes_ok, Hok | apply strip0_head].
Qed.

Lemma blind_err a x s e : blind a x s = Err e -> e = ErrBlindingFailed.
Proof.
  unfold blind, bind, remap_err.
  destruct (randBigInt lenPub s) as [[r s1]|e'|]; cbv beta zeta; intros H;
    try discriminate.
  - destruct (_ >? BitLen P); unfold raise, ret in H; [|discriminate].
    now inversion H.
  - now inversion H.
Qed.

Lemma BitLen_le_2048 v : 0 <= v -> (BitLen v <= 2048 <-> v < 2 ^ 2048).
Proof.
  intros Hv. unfold BitLen. destruct (Z.eqb_spec v 0) as [->|Hn]; [lia|].
  rewrite Z.abs_eq by lia.
  pose proof (Z.log2_lt_pow2 v 2048 ltac:(lia)). lia.
Qed.

Lemma strip0_len_bound l :
  bytes_ok l = true -> (SetBytes l < 2 ^ 2048 <-> (length (strip0 l) <= 256)%nat).
Proof.
  intros Hok. rewrite <- SetBytes_strip0.
  pose proof (strip0_bytes_ok l Hok) as Hs.
  set (m := strip0 l) in *.
  assert (E : (2 ^ 2048 : Z) = 256 ^ Z.of_nat 256) by reflexivity.
  rewrite E. split; intros H.
  - destruct (Nat.leb_spec (length m) 256) as [|Hl]; [assumption|].
    destruct (strip0_head l) as [Hm|Hm]; fold m in Hm.
    + rewrite Hm in Hl. cbn in Hl. lia.
    + assert (Hne : m <> []) by (intros ->; cbn in Hl; lia).
      pose proof (SetBytes_lead m Hs Hne Hm) as Hlead.
      pose proof (Z.pow_le_mono_r 256 (Z.of_nat 256) (Z.of_nat (length m - 1))
                    ltac:(lia) ltac:(lia)).
      lia.
  - pose proof (SetBytes_range m Hs) as [_ R].
    pose proof (Z.pow_le_mono_r 256 (Z.of_nat (length m)) (Z.of_nat 256)
                  ltac:(lia) ltac:(lia)).
    lia.
Qed.

(** ** [blind] *)

(** X1: [blind] never panics, and its [BitLen] check never fires: with a
    reader of at least 32 bytes it returns [a ^ (2^258 + x) mod P] and
    consumes exactly 32 bytes; with fewer it fails with
    [ErrBlindingFailed]. *)
Theorem blind_outcome a x s :
  0 <= x -> bytes_ok s = true ->
  blind a x s = if (32 <=? length s)%nat
                then Ok (a ^ (big2To258 + x) mod P, skipn 32 s)
                else Err ErrBlindingFailed.
Proof.
  intros Hx Hs. destruct (Nat.leb_spec 32 (length s)) as [Hl|Hl].
  - exact (blind_ok a x s Hx Hs Hl).
  - exact (blind_short a x s Hl).
Qed.

Lemma blind_outcome_witness :
  blind 2 5 (repeat 7 40) = Ok (2 ^ (big2To258 + 5) mod P, repeat 7 8) /\
  blind 2 5 (repeat 7 31) = Err ErrBlindingFailed.
Proof.
  split.
  - rewrite (blind_outcome 2 5 (repeat 7 40) ltac:(lia) eq_refl).
    replace ((32 <=? length (repeat 7 40))%nat) with true by reflexivity.
    replace (skipn 32 (repeat 7 40)) with (repeat 7 8) by reflexivity.
    reflexivity.
  - rewrite (blind_outcome 2 5 (repeat 7 31) ltac:(lia) eq_refl).
    replace ((32 <=? length (repeat 7 31))%nat) with false by reflexivity.
    reflexivity.
Defined.

(** ** [SharedKey] *)

(** X2: [SharedKey] never returns [ErrInvalidSharedKey]: whenever the
    slice [skBig.Bytes()[:size]] succeeds it has exactly [size] bytes, so
    the length check after it is dead code. *)
Theorem SharedKey_never_ErrInvalidSharedKey prv pub n s :
  SharedKey prv pub n s <> Err ErrInvalidSharedKey.
Proof.
  unfold SharedKey. destruct (negb (Valid pub)); [discriminate|].
  unfold bind at 1.
  destruct (blind (A pub) (X prv) s) as [[y s1]|e|] eqn:Eb; [| |discriminate].
  - unfold bind, slice_to.
    destruct ((0 <=? n) && (n <=? Z.of_nat (length (Bytes y)))) eqn:E;
      [|discriminate].
    apply andb_true_iff in E as [E1 E2]. apply Z.leb_le in E1, E2.
    unfold ret. rewrite length_firstn.
    destruct (Z.ltb_spec (Z.of_nat (Nat.min (Z.to_nat n) (length (Bytes y)))) n);
      [lia|discriminate].
  - apply blind_err in Eb. subst e. discriminate.
Qed.

(** X3: the outcome of [SharedKey]: [ErrInvalidPublicKey] for a public
    value longer than [P], [ErrBlindingFailed] for a reader of fewer than 32
    bytes, the first [size] bytes of the shared value when
    [0 <= size <= len(Bytes)], and a panic for any other size, a negative
    one included. *)
Theorem SharedKey_outcome prv pub n s :
  0 <= X prv -> bytes_ok s = true ->
  SharedKey prv pub n s =
    if negb (Valid pub) then Err ErrInvalidPublicKey
    else if (length s <? 32)%nat then Err ErrBlindingFailed
    else if (0 <=? n) && (n <=? Z.of_nat (length (Bytes (shared_value prv pub))))
    then Ok (firstn (Z.to_nat n) (Bytes (shared_value prv pub)), skipn 32 s)
    else Panic.
Proof.
  intros Hx Hs. destruct (Valid pub) eqn:Hv.
  2:{ unfold SharedKey. rewrite Hv. reflexivity. }
  cbn [negb].
  destruct (Nat.ltb_spec (length s) 32) as [Hl|Hl].
  - unfold SharedKey. rewrite Hv. cbn [negb]. unfold bind at 1.
    rewrite blind_short by exact Hl. reflexivity.
  - destruct ((0 <=? n) && (n <=? Z.of_nat (length (Bytes (shared_value prv pub)))))
      eqn:E.
    + apply andb_true_iff in E as [E1 E2]. apply Z.leb_le in E1, E2.
      apply SharedKey_ok; try assumption; lia.
    + unfold SharedKey. rewrite Hv. cbn [negb]. unfold bind at 1.
      rewrite blind_ok by assumption. fold (shared_value prv pub).
      unfold bind, slice_to. rewrite E. reflexivity.
Qed.

Lemma SharedKey_outcome_witness :
  SharedKey (prv_of 1) (Pub (prv_of 2)) (-1) reader_r0 = Panic.
Proof.
  rewrite (SharedKey_outcome (prv_of 1) (Pub (prv_of 2)) (-1) reader_r0
             ltac:(unfold prv_of; cbn; lia) eq_refl).
  replace (Valid (Pub (prv_of 2))) with true
    by (unfold prv_of; cbn [Pub]; symmetry; apply Valid_mod).
  reflexivity.
Defined.

(** ** Import and export *)

(** X4: the public key of every key pair [GenerateKey] returns survives
    [Export] followed by [ImportPublic] (the round trip of
    [TestImportPublic]). *)
Theorem ImportPublic_Export_roundtrip s prv r :
  bytes_ok s = true -> GenerateKey s = Ok (prv, r) ->
  ImportPublic (Export prv) = Ok (Pub prv).
Proof.
  intros Hs Hg. destruct (GenerateKey_inv _ _ _ Hs Hg) as [_ HA].
  destruct prv as [[a] x]. cbn [Pub A X] in HA.
  assert (Ha : 0 <= a < P) by (rewrite HA; apply Z.mod_pos_bound, P_pos).
  unfold ImportPublic, Export. cbv zeta. cbn [Pub A].
  rewrite SetBytes_Bytes by lia. unfold Valid. cbn [A].
  pose proof (BitLen_le_P a Ha).
  destruct (Z.leb_spec (BitLen a) (BitLen P)); [reflexivity|lia].
Qed.

Lemma ImportPublic_Export_roundtrip_witness :
  GenerateKey (reader_x 1) = Ok (prv_of 1, []) /\
  ImportPublic (Export (prv_of 1)) = Ok (Pub (prv_of 1)).
Proof.
  pose proof (GenerateKey_reader_x_prv_of 1 ltac:(lia)) as G.
  split; [exact G|].
  exact (ImportPublic_Export_roundtrip (reader_x 1) (prv_of 1) [] eq_refl G).
Defined.

(** X5: whenever [ImportPrivate] succeeds, the key holds [X = SetBytes(in)]
    and [ExportPrivate] gives back the input without its leading zero
    bytes; an input with no leading zero byte comes back unchanged. *)
Theorem ImportPrivate_ExportPrivate_strip inp s prv s' :
  bytes_ok inp = true -> ImportPrivate inp s = Ok (prv, s') ->
  X prv = SetBytes inp /\ ExportPrivate prv = strip0 inp.
Proof.
  intros Hinp. unfold ImportPrivate, bind at 1. cbv zeta.
  destruct (generatePublicKey (SetBytes inp) s) as [[pub s1]|e|];
    try discriminate.
  unfold ret. intros H. apply Ok_inj, pair_equal_spec in H as [<- _].
  unfold ExportPrivate. cbn [X]. split; [reflexivity|].
  apply Bytes_SetBytes_strip, Hinp.
Qed.

Lemma ImportPrivate_ExportPrivate_strip_witness :
  exists prv, ImportPrivate [0; 0; 7] reader_r0 = Ok (prv, []) /\
              ExportPrivate prv = [7].
Proof.
  assert (E : ImportPrivate [0; 0; 7] reader_r0
              = Ok (mkPrivateKey (mkPublicKey (g ^ (big2To258 + SetBytes [0; 0; 7]) mod P))
                                 (SetBytes [0; 0; 7]), [])).
  { unfold ImportPrivate, bind at 1. cbv zeta.
    rewrite generatePublicKey_ok by (try reflexivity; cbn; lia).
    reflexivity. }
  eexists. split; [exact E|].
  rewrite (proj2 (ImportPrivate_ExportPrivate_strip [0; 0; 7] _ _ _ eq_refl E)).
  reflexivity.
Defined.

(** X6: whenever [ImportPublic] accepts an input, the big-endian encoding
    [A.Bytes()] of the imported key (what [Export] writes) is the input
    without its leading zero bytes. *)
Theorem ImportPublic_Bytes_strip inp pub :
  bytes_ok inp = true -> ImportPublic inp = Ok pub -> Bytes (A pub) = strip0 inp.
Proof.
  intros Hinp. unfold ImportPublic. cbv zeta.
  destruct (negb (Valid (mkPublicKey (SetBytes inp)))); [discriminate|].
  intros H. apply Ok_inj in H. subst pub. cbn [A].
  apply Bytes_SetBytes_strip, Hinp.
Qed.

Lemma ImportPublic_Bytes_strip_witness :
  ImportPublic [0; 1; 2] = Ok (mkPublicKey 258) /\
  Bytes (A (mkPublicKey 258)) = [1; 2].
Proof.
  assert (E : ImportPublic [0; 1; 2] = Ok (mkPublicKey 258)) by reflexivity.
  split; [exact E|].
  exact (ImportPublic_Bytes_strip [0; 1; 2] _ eq_refl E).
Defined.

(** X7: [ImportPublic] accepts an input exactly when it has at most 256
    bytes once its leading zero bytes are dropped; any number of leading
    zero bytes is accepted. *)
Theorem ImportPublic_accepts_256_bytes inp :
  bytes_ok inp = true ->
  ImportPublic inp = if (length (strip0 inp) <=? 256)%nat
                     then Ok (mkPublicKey (SetBytes inp))
                     else Err ErrInvalidPublicKey.
Proof.
  intros Hinp. unfold ImportPublic, Valid. cbv zeta. cbn [A]. rewrite BitLen_P.
  pose proof (SetBytes_nonneg inp Hinp) as H0.
  pose proof (BitLen_le_2048 _ H0) as H1.
  pose proof (strip0_len_bound inp Hinp) as H2.
  destruct (Z.leb_spec (BitLen (SetBytes inp)) 2048);
  destruct (Nat.leb_spec (length (strip0 inp)) 256); try reflexivity; exfalso.
  - apply H1, H2 in H. lia.
  - apply H2, H1 in H3. lia.
Qed.

Lemma ImportPublic_accepts_256_bytes_witness :
  ImportPublic (repeat 0 300 ++ [5]) = Ok (mkPublicKey 5) /\
  ImportPublic (repeat 1 257) = Err ErrInvalidPublicKey.
Proof.
  split.
  - rewrite (ImportPublic_accepts_256_bytes (repeat 0 300 ++ [5]) eq_refl).
    vm_compute. reflexivity.
  - rewrite (ImportPublic_accepts_256_bytes (repeat 1 257) eq_refl).
    vm_compute. reflexivity.
Defined.

(** ** Key generation *)



Lemma ReadFull_inv s xb s1 :
  ReadFull lenPriv s = Ok (xb, s1) ->
  (32 <= length s)%nat /\ xb = firstn 32 s /\ s1 = skipn 32 s.
Proof.
  unfold ReadFull. cbv zeta. change (Z.to_nat lenPriv) with 32%nat.
  destruct (Nat.leb_spec 32 (length s)) as [Hl|Hl].
  - intros E. injection E as <- <-. auto.
  - destruct s; discriminate.
Qed.


(** Enough rounds: more fuel does not change the result of [GenerateKey]. *)
Lemma GenerateKey_rounds_fuel f1 : forall f2 s,
  (length s < 32 * f1)%nat -> (length s < 32 * f2)%nat ->
  GenerateKey_rounds f1 s = GenerateKey_rounds f2 s.
Proof.
  induction f1 as [|f1 IH]; intros f2 s H1 H2; [lia|].
  destruct f2 as [|f2]; [lia|].
  cbn [GenerateKey_rounds]. unfold bind at 1 3.
  destruct (ReadFull lenPriv s) as [[xb s1]|e|] eqn:ER; try reflexivity.
  apply ReadFull_inv in ER as (Hl & _ & ->).
  cbv zeta.
  destruct (negb (SetBytes xb >? bigZero)); [|destruct (SetBytes xb >? P - bigOne)];
    try reflexivity; apply IH; rewrite length_skipn; lia.
Qed.


(** X9: a 32-byte sample of value 0 is discarded: [GenerateKey] then
    behaves as if called again on the rest of the reader. *)
Theorem GenerateKey_skips_zero_sample s :
  (32 <= length s)%nat -> SetBytes (firstn 32 s) = 0 ->
  GenerateKey s = GenerateKey (skipn 32 s).
Proof.
  intros Hl Hz. unfold GenerateKey at 1. cbn [GenerateKey_rounds].
  unfold bind at 1. rewrite ReadFull_ok by exact Hl. cbv beta zeta.
  rewrite Hz. cbn [negb Z.gtb Z.compare bigZero].
  unfold GenerateKey. apply GenerateKey_rounds_fuel; rewrite ?length_skipn; lia.
Qed.

Lemma GenerateKey_skips_zero_sample_witness :
  GenerateKey (repeat 0 32 ++ reader_x 1) = Ok (prv_of 1, []).
Proof.
  rewrite (GenerateKey_skips_zero_sample (repeat 0 32 ++ reader_x 1)
             ltac:(cbn; lia) eq_refl).
  replace (skipn 32 (repeat 0 32 ++ reader_x 1)) with (reader_x 1) by reflexivity.
  apply GenerateKey_reader_x_prv_of. lia.
Defined.

(** X10: the check [x > P - 1] of [GenerateKey] never rejects a sample: a
    32-byte sample is below [2^256 < P - 1]. Every nonzero sample is taken
    as the secret [X], and with 32 more bytes for the blinding the key pair
    is [X] with [A = g ^ (2^258 + X) mod P], after reading 64 bytes. *)
Theorem GenerateKey_accepts_nonzero_sample s :
  bytes_ok s = true -> (64 <= length s)%nat -> SetBytes (firstn 32 s) <> 0 ->
  SetBytes (firstn 32 s) <= P - bigOne /\
  exists prv, GenerateKey s = Ok (prv, skipn 64 s) /\
              X prv = SetBytes (firstn 32 s) /\
              A (Pub prv) = g ^ (big2To258 + X prv) mod P.
Proof.
  intros Hs Hl Hz. pose proof (randBigInt_range s Hs ltac:(lia)) as R.
  pose proof two256_lt_P. split; [lia|].
  eexists. split; [apply GenerateKey_first_round; try assumption; lia|].
  split; reflexivity.
Qed.

Lemma GenerateKey_accepts_nonzero_sample_witness :
  exists prv, GenerateKey (repeat 255 64) = Ok (prv, []) /\
              X prv = 2 ^ 256 - 1.
Proof.
  destruct (GenerateKey_accepts_nonzero_sample (repeat 255 64) eq_refl
              ltac:(cbn; lia) ltac:(vm_compute; discriminate))
    as (_ & prv & E & HX & _).
  exists prv. split; [exact E|]. rewrite HX. reflexivity.
Defined.

(** X11: [ImportPrivate] checks nothing about its input: every byte string
    (the empty one, zero, values of [P] or more) becomes the secret
    [X = SetBytes(in)] with [A = g ^ (2^258 + X) mod P], after reading 32
    bytes for the blinding; its only failure is [ErrBlindingFailed] on a
    reader of fewer than 32 bytes. *)
Theorem ImportPrivate_outcome inp s :
  bytes_ok inp = true -> bytes_ok s = true ->
  ImportPrivate inp s =
    if (32 <=? length s)%nat
    then Ok (mkPrivateKey (mkPublicKey (g ^ (big2To258 + SetBytes inp) mod P))
                          (SetBytes inp), skipn 32 s)
    else Err ErrBlindingFailed.
Proof.
  intros Hinp Hs. pose proof (SetBytes_nonneg inp Hinp).
  unfold ImportPrivate, bind at 1. cbv zeta.
  destruct (Nat.leb_spec 32 (length s)) as [Hl|Hl].
  - rewrite generatePublicKey_ok by assumption. reflexivity.
  - unfold generatePublicKey, bind at 1. rewrite blind_short by exact Hl.
    reflexivity.
Qed.

Lemma ImportPrivate_outcome_witness :
  ImportPrivate (repeat 255 300) reader_r0
  = Ok (mkPrivateKey (mkPublicKey (g ^ (big2To258 + (2 ^ 2400 - 1)) mod P))
                     (2 ^ 2400 - 1), []) /\
  P <= 2 ^ 2400 - 1.
Proof.
  assert (E : SetBytes (repeat 255 300) = 2 ^ 2400 - 1) by (vm_compute; reflexivity).
  split; [|unfold P; lia].
  rewrite (ImportPrivate_outcome (repeat 255 300) reader_r0 eq_refl eq_refl).
  replace ((32 <=? length reader_r0)%nat) with true by reflexivity.
  rewrite E. reflexivity.
Defined.

(** ** [InitializeKEK] *)

Lemma ainfo_bad_false (ainfo : option (list Z)) :
  match ainfo with Some a => length a = 64%nat | None => True end ->
  match ainfo with Some a => negb (length a =? 64)%nat | None => false end = false.
Proof. destruct ainfo as [a|]; [intros ->|]; reflexivity. Qed.

Lemma zeroPad_short inp outlen :
  (length inp < Z.to_nat outlen)%nat ->
  zeroPad inp outlen
  = Ok (repeat 0 (Z.to_nat outlen - length inp - 1) ++ inp ++ [0]).
Proof.
  intros Hl. unfold zeroPad.
  destruct (Z.gtb_spec (Z.of_nat (length inp)) outlen); [lia|].
  destruct (Z.ltb_spec outlen 0); [lia|].
  destruct (Z.ltb_spec (outlen - Z.of_nat (length inp) - 1) 0); [lia|].
  f_equal. unfold copy_at.
  set (N := Z.to_nat outlen). set (L := length inp).
  replace (Z.to_nat (outlen - Z.of_nat L - 1)) with (N - L - 1)%nat by lia.
  rewrite repeat_length.
  replace (Nat.min (N - (N - L - 1)) L) with L by lia.
  rewrite firstn_repeat_le by lia.
  replace (firstn L inp) with inp by (symmetry; apply firstn_all).
  rewrite skipn_repeat_sub.
  replace (N - (N - L - 1 + L))%nat with 1%nat by lia. reflexivity.
Qed.

(** The KEK [InitializeKEK] builds from the padded shared value. *)
Lemma InitializeKEK_ok prv pub params ainfo hh hw rand v zz r :
  match ainfo with Some a => length a = 64%nat | None => True end ->
  read_be32 (SuppPubInfo params) = Some v -> 0 <= v < 256 ->
  SharedKey prv pub v rand = Ok (zz, r) ->
  InitializeKEK prv pub params ainfo hh hw rand
  = Ok (Some (mkKEK (repeat 0 (255 - Z.to_nat v) ++ zz ++ [0])
                    (mkKEKParams (mkKeySpecificInfo
                                    (Algorithm (ParamsKeySpecificInfo params))
                                    [0; 0; 0; 1])
                                 ainfo (SuppPubInfo params))
                    hh hw)).
Proof.
  intros Ha Hr Hv HSK.
  pose proof (SharedKey_length prv pub v rand zz r ltac:(lia) HSK) as Hlen.
  unfold InitializeKEK. cbv zeta. rewrite (ainfo_bad_false ainfo Ha), Hr.
  destruct (Z.geb_spec v (2 ^ 31)); [lia|]. rewrite HSK. cbv beta iota.
  rewrite P_width, zeroPad_short by (rewrite Hlen; lia).
  rewrite Hlen. replace (Z.to_nat 256 - Z.to_nat v - 1)%nat with (255 - Z.to_nat v)%nat
    by lia.
  reflexivity.
Qed.

Lemma InitializeKEK_inv prv pub params ainfo hh hw rand k :
  InitializeKEK prv pub params ainfo hh hw rand = Ok (Some k) ->
  exists v zz r,
    read_be32 (SuppPubInfo params) = Some v /\
    SharedKey prv pub (if v >=? 2 ^ 31 then v - 2 ^ 32 else v) rand = Ok (zz, r) /\
    zeroPad zz 256 = Ok (ZZ k) /\
    k = mkKEK (ZZ k) (mkKEKParams (mkKeySpecificInfo
                                     (Algorithm (ParamsKeySpecificInfo params))
                                     [0; 0; 0; 1])
                                  ainfo (SuppPubInfo params)) hh hw.
Proof.
  unfold InitializeKEK. cbv zeta. rewrite P_width.
  destruct (match ainfo with Some a => negb (length a =? 64)%nat | None => false end);
    [discriminate|].
  destruct (read_be32 (SuppPubInfo params)) as [v|]; [|discriminate].
  destruct (SharedKey prv pub _ rand) as [[zz r]|e|] eqn:ES; try discriminate.
  destruct (zeroPad zz 256) as [zz'|e|] eqn:EZ; try discriminate.
  intros H. apply Ok_inj in H. injection H as <-.
  exists v, zz, r. cbn [ZZ]. auto.
Qed.

Lemma cek_loop_not_err fuel : forall zz oi hh keylen i key buf ctr e,
  cek_loop fuel zz oi hh keylen i key buf ctr <> Err e.
Proof.
  induction fuel as [|f IH]; intros zz oi hh keylen i key buf ctr e; cbn [cek_loop];
    [discriminate|].
  destruct (i <? keylen)%nat; [|discriminate].
  destruct (incCounter ctr); [apply IH|discriminate].
Qed.

(** X12: [InitializeKEK] returns a nil KEK, without error, when [ainfo] is
    non-nil and not 64 bytes long, when [SuppPubInfo] has fewer than four
    bytes, when the public key is invalid, or when the reader has fewer
    than 32 bytes for the blinding. *)
Theorem InitializeKEK_nil prv pub params ainfo hh hw rand :
  (match ainfo with Some a => length a <> 64%nat | None => False end \/
   (length (SuppPubInfo params) < 4)%nat \/
   Valid pub = false \/
   (length rand < 32)%nat) ->
  InitializeKEK prv pub params ainfo hh hw rand = Ok None.
Proof.
  intros H. unfold InitializeKEK. cbv zeta.
  destruct H as [Ha|[Hs|[Hv|Hr]]].
  - destruct ainfo as [a|]; [|contradiction].
    destruct (Nat.eqb_spec (length a) 64); [contradiction|]. reflexivity.
  - destruct (match ainfo with Some a => negb (length a =? 64)%nat | None => false end);
      [reflexivity|].
    unfold read_be32. destruct (Nat.leb_spec 4 (length (SuppPubInfo params)));
      [lia|reflexivity].
  - destruct (match ainfo with Some a => negb (length a =? 64)%nat | None => false end);
      [reflexivity|].
    destruct (read_be32 (SuppPubInfo params)); [|reflexivity].
    unfold SharedKey at 1. rewrite Hv. reflexivity.
  - destruct (match ainfo with Some a => negb (length a =? 64)%nat | None => false end);
      [reflexivity|].
    destruct (read_be32 (SuppPubInfo params)); [|reflexivity].
    unfold SharedKey at 1. destruct (Valid pub); [|reflexivity]. cbn [negb].
    unfold bind at 1. rewrite blind_short by exact Hr. reflexivity.
Qed.

Lemma InitializeKEK_nil_witness :
  InitializeKEK (prv_of 1) (Pub (prv_of 2)) KEKAES256CBCHMACSHA512 None toy_hash [] []
  = Ok None.
Proof.
  apply InitializeKEK_nil. right. right. right. cbn. lia.
Defined.

(** X13: when [InitializeKEK] gets a well-formed [ainfo], a key length
    field [v < 256] and a successful [SharedKey] of [v] bytes, it returns a
    KEK whose [ZZ] is the shared key padded by [zeroPad] to 256 bytes, whose
    counter is [00000001], which keeps the caller's hash [h] as given
    (with the bytes already written into it), [ainfo], the algorithm and
    [SuppPubInfo], and whose [KeyLen] is [v]. *)
Theorem InitializeKEK_builds_KEK prv pub params ainfo hh hw rand v zz r :
  match ainfo with Some a => length a = 64%nat | None => True end ->
  read_be32 (SuppPubInfo params) = Some v -> 0 <= v < 256 ->
  SharedKey prv pub v rand = Ok (zz, r) ->
  exists k, InitializeKEK prv pub params ainfo hh hw rand = Ok (Some k) /\
    ZZ k = repeat 0 (255 - Z.to_nat v) ++ zz ++ [0] /\
    length (ZZ k) = 256%nat /\
    kek_counter k = [0; 0; 0; 1] /\ hbuf k = hw /\ h k = hh /\
    PartyAInfo (Params k) = ainfo /\
    Algorithm (ParamsKeySpecificInfo (Params k))
      = Algorithm (ParamsKeySpecificInfo params) /\
    SuppPubInfo (Params k) = SuppPubInfo params /\
    KeyLen k = v.
Proof.
  intros Ha Hr Hv HSK.
  pose proof (SharedKey_length prv pub v rand zz r ltac:(lia) HSK) as Hlen.
  eexists. split; [exact (InitializeKEK_ok _ _ _ _ _ _ _ _ _ _ Ha Hr Hv HSK)|].
  cbn [ZZ kek_counter hbuf h Params PartyAInfo ParamsKeySpecificInfo Algorithm
       SuppPubInfo counter].
  split; [reflexivity|]. split.
  { rewrite !length_app, repeat_length, Hlen. cbn [length]. lia. }
  repeat split. unfold KeyLen. cbn [Params SuppPubInfo]. now rewrite Hr.
Qed.

Lemma InitializeKEK_builds_KEK_witness :
  exists k, InitializeKEK (prv_of 1) (Pub (prv_of 2)) params1 None toy_hash [] reader_r0
            = Ok (Some k) /\ length (ZZ k) = 256%nat /\ KeyLen k = 1.
Proof.
  destruct (InitializeKEK_builds_KEK (prv_of 1) (Pub (prv_of 2)) params1 None toy_hash
              [] reader_r0 1 _ _ I eq_refl ltac:(lia)
              (SharedKey_prv_of_ok 1 2 ltac:(lia) ltac:(lia)))
    as (k & E & _ & L & _ & _ & _ & _ & _ & _ & K).
  exists k. auto.
Defined.

(** X14: [InitializeKEK] reads the key length into an [int32]; a length
    field with its top bit set ([2^31 <= v < 2^32]) is negative there, and
    with a valid public key and a reader of 32 bytes the slice
    [Bytes()[:size]] in [SharedKey] panics. [KeyLen] reads the same field
    as a [uint32]. *)
Theorem InitializeKEK_negative_keylen_panics prv pub params ainfo hh hw rand v :
  match ainfo with Some a => length a = 64%nat | None => True end ->
  read_be32 (SuppPubInfo params) = Some v -> 2 ^ 31 <= v < 2 ^ 32 ->
  Valid pub = true -> 0 <= X prv -> bytes_ok rand = true -> (32 <= length rand)%nat ->
  InitializeKEK prv pub params ainfo hh hw rand = Panic.
Proof.
  intros Ha Hr Hv Hp Hx Hs Hl.
  unfold InitializeKEK. cbv zeta. rewrite (ainfo_bad_false ainfo Ha), Hr.
  destruct (Z.geb_spec v (2 ^ 31)); [|lia].
  unfold SharedKey. rewrite Hp. cbn [negb]. unfold bind at 1.
  rewrite blind_ok by assumption. unfold bind, slice_to.
  destruct (Z.leb_spec 0 (v - 2 ^ 32)); [lia|]. reflexivity.
Qed.

Lemma InitializeKEK_negative_keylen_panics_witness :
  InitializeKEK (prv_of 1) (Pub (prv_of 2)) params_neg None toy_hash [] reader_r0 = Panic.
Proof.
  apply (InitializeKEK_negative_keylen_panics (prv_of 1) (Pub (prv_of 2)) params_neg
           None toy_hash [] reader_r0 2147483648 I eq_refl);
    [lia | unfold prv_of; apply Valid_mod | unfold prv_of; cbn; lia
    | reflexivity | cbn; lia].
Defined.

(** ** [CEK] *)

(** X15: [InitializeKEK] accepts a key length field of 0: with a valid
    public key and a reader of 32 bytes it returns a non-nil KEK whose
    [KeyLen] is 0, and [CEK] on that KEK fails with [ErrInvalidKEKParams]. *)
Theorem InitializeKEK_zero_keylen_CEK marshal prv pub params ainfo hh hw rand :
  match ainfo with Some a => length a = 64%nat | None => True end ->
  read_be32 (SuppPubInfo params) = Some 0 ->
  Valid pub = true -> 0 <= X prv -> bytes_ok rand = true -> (32 <= length rand)%nat ->
  exists k, InitializeKEK prv pub params ainfo hh hw rand = Ok (Some k) /\
            KeyLen k = 0 /\ CEK marshal (Some k) = Err ErrInvalidKEKParams.
Proof.
  intros Ha Hr Hp Hx Hs Hl.
  assert (HSK : SharedKey prv pub 0 rand
                = Ok (firstn (Z.to_nat 0) (Bytes (shared_value prv pub)), skipn 32 rand))
    by (apply SharedKey_ok; try assumption; lia).
  pose proof (InitializeKEK_ok prv pub params ainfo hh hw rand 0 _ _ Ha Hr
                ltac:(lia) HSK) as E.
  eexists. split; [exact E|].
  assert (K : KeyLen (mkKEK (repeat 0 (255 - Z.to_nat 0) ++ firstn (Z.to_nat 0)
                               (Bytes (shared_value prv pub)) ++ [0])
                            (mkKEKParams (mkKeySpecificInfo
                                            (Algorithm (ParamsKeySpecificInfo params))
                                            [0; 0; 0; 1]) ainfo (SuppPubInfo params))
                            hh hw) = 0)
    by (unfold KeyLen; cbn [Params SuppPubInfo]; now rewrite Hr).
  split; [exact K|]. unfold CEK. cbv zeta. rewrite K. reflexivity.
Qed.

Lemma InitializeKEK_zero_keylen_CEK_witness :
  exists k, InitializeKEK (prv_of 1) (Pub (prv_of 2)) params0 None toy_hash [] reader_r0
            = Ok (Some k) /\ CEK toy_marshal (Some k) = Err ErrInvalidKEKParams.
Proof.
  destruct (InitializeKEK_zero_keylen_CEK toy_marshal (prv_of 1) (Pub (prv_of 2))
              params0 None toy_hash [] reader_r0 I eq_refl)
    as (k & E & _ & C);
    [unfold prv_of; apply Valid_mod | unfold prv_of; cbn; lia | reflexivity
    | cbn; lia |].
  exists k. auto.
Defined.

(** X16: [CEK] fails with [ErrInvalidKEKParams] exactly for a nil KEK and
    for a KEK whose [KeyLen] is 0; for any other KEK its only possible error
    is the one of the serializer. *)
Theorem CEK_ErrInvalidKEKParams_iff marshal kek :
  (CEK marshal kek = Err ErrInvalidKEKParams <->
   kek = None \/ exists k, kek = Some k /\ KeyLen k = 0) /\
  (forall e, CEK marshal kek = Err e -> e = ErrInvalidKEKParams \/ e = ErrMarshal).
Proof.
  destruct kek as [k|]; [|split; [split; auto|intros e H; injection H as <-; auto]].
  unfold CEK. cbv zeta.
  destruct (Z.eqb_spec (KeyLen k) 0) as [E0|E0].
  { split; [split; eauto|intros e H; injection H as <-; auto]. }
  unfold marshalKEKParams.
  assert (Hloop : forall e, match
            match marshal (Params k) with Some b => Ok b | None => Err ErrMarshal end
          with
          | Ok otherInfo =>
              match cek_loop (Z.to_nat (KeyLen k)) (ZZ k) otherInfo (h k)
                      (Z.to_nat (KeyLen k)) 0 (repeat 0 (Z.to_nat (KeyLen k))) []
                      (counter (ParamsKeySpecificInfo (Params k))) with
              | Ok (key', buf', ctr') =>
                  Ok (firstn (Z.to_nat (KeyLen k)) key', with_counter k ctr' buf')
              | Err e => Err e
              | Panic => Panic
              end
          | Err e => Err e
          | Panic => Panic
          end = Err e -> e = ErrMarshal).
  { intros e. destruct (marshal (Params k)) as [oi|].
    - destruct (cek_loop _ _ _ _ _ _ _ _ _) as [[[a b] c]|e'|] eqn:EL;
        try discriminate.
      exfalso. exact (cek_loop_not_err _ _ _ _ _ _ _ _ _ _ EL).
    - intros H. now injection H as <-. }
  split.
  - split.
    + intros H. apply Hloop in H. discriminate.
    + intros [H|(k' & H & H')]; [discriminate|]. injection H as <-. contradiction.
  - intros e H. right. exact (Hloop e H).
Qed.

(** X17: [CEK] on a KEK whose counter has fewer than four bytes (the
    predefined parameter values have a nil counter; only [InitializeKEK]
    sets it) panics in [incCounter] when the key length is positive and
    the serializer succeeds. *)
Theorem CEK_short_counter_panics marshal kek oi :
  0 < KeyLen kek -> marshal (Params kek) = Some oi ->
  (length (kek_counter kek) < 4)%nat ->
  CEK marshal (Some kek) = Panic.
Proof.
  intros Hk Hm Hc. unfold CEK. cbv zeta.
  destruct (Z.eqb_spec (KeyLen kek) 0) as [E0|E0]; [lia|].
  unfold marshalKEKParams. rewrite Hm.
  destruct (Z.to_nat (KeyLen kek)) as [|n] eqn:En; [lia|].
  cbn [cek_loop]. destruct (Nat.ltb_spec 0 (S n)); [|lia].
  replace (incCounter (counter (ParamsKeySpecificInfo (Params kek)))) with
    (@None (list Z)); [reflexivity|].
  unfold kek_counter in Hc.
  destruct (counter (ParamsKeySpecificInfo (Params kek)))
    as [|a [|b [|c [|d rest]]]]; cbn [length] in Hc; try lia; reflexivity.
Qed.

Lemma CEK_short_counter_panics_witness : CEK toy_marshal (Some kek_nilctr) = Panic.
Proof.
  apply (CEK_short_counter_panics toy_marshal kek_nilctr
           (AES128CBC ++ [] ++ [0; 0; 0; 48])).
  - vm_compute. reflexivity.
  - reflexivity.
  - cbn. lia.
Defined.

(** X18: [incCounter] adds one modulo [2^32] to the big-endian value of a
    four-byte counter (so [ffffffff] wraps to [00000000]), and panics on a
    counter of fewer than four bytes. *)
Theorem incCounter_adds_one c :
  (ctr_ok c = true ->
   exists c', incCounter c = Some c' /\ ctr_ok c' = true /\
              SetBytes c' = (SetBytes c + 1) mod 2 ^ 32) /\
  ((length c < 4)%nat -> incCounter c = None).
Proof.
  split; [exact (incCounter_ok c)|].
  intros Hc. destruct c as [|a [|b [|d [|e rest]]]]; cbn [length] in Hc;
    try lia; reflexivity.
Qed.

Lemma incCounter_adds_one_witness :
  exists c', incCounter [255; 255; 255; 255] = Some c' /\ SetBytes c' = 0.
Proof.
  destruct (proj1 (incCounter_adds_one [255; 255; 255; 255]) eq_refl)
    as (c' & E & _ & V).
  exists c'. split; [exact E|]. rewrite V. reflexivity.
Defined.

(** X19: two parties that generate their keys with [GenerateKey] and call
    [InitializeKEK] with each other's public key, the same parameters,
    [ainfo] and hash get the same KEK whenever both calls return one, and
    therefore the same sequence of [CEK] results (the property
    [TestKEK] checks). *)
Theorem InitializeKEK_two_parties_agree sA sB prvA prvB rA rB params ainfo hh hw
  randA randB kA kB :
  bytes_ok sA = true -> bytes_ok sB = true ->
  bytes_ok randA = true -> bytes_ok randB = true ->
  GenerateKey sA = Ok (prvA, rA) -> GenerateKey sB = Ok (prvB, rB) ->
  InitializeKEK prvA (Pub prvB) params ainfo hh hw randA = Ok (Some kA) ->
  InitializeKEK prvB (Pub prvA) params ainfo hh hw randB = Ok (Some kB) ->
  kA = kB /\ forall marshal m, CEK_seq marshal m kA = CEK_seq marshal m kB.
Proof.
  intros HA HB HRA HRB GA GB IA IB.
  destruct (GenerateKey_inv _ _ _ HA GA) as [XA EA].
  destruct (GenerateKey_inv _ _ _ HB GB) as [XB EB].
  destruct (InitializeKEK_inv _ _ _ _ _ _ _ _ IA) as (v & zz & r & Rv & SA & ZA & KA).
  destruct (InitializeKEK_inv _ _ _ _ _ _ _ _ IB) as (v' & zz' & r' & Rv' & SB & ZB & KB).
  rewrite Rv in Rv'. injection Rv' as <-.
  apply SharedKey_inv in SA; [|lia|exact HRA].
  apply SharedKey_inv in SB; [|lia|exact HRB].
  assert (Hsh : shared_value prvA (Pub prvB) = shared_value prvB (Pub prvA)).
  { destruct prvA as [[a] xA], prvB as [[b] xB]. cbn [Pub A X] in *.
    subst a b. rewrite !shared_value_generated by lia. now rewrite Z.mul_comm. }
  assert (Hzz : zz = zz') by (rewrite SA, SB, Hsh; reflexivity).
  rewrite <- Hzz, ZA in ZB. apply Ok_inj in ZB.
  assert (Hk : kA = kB) by (rewrite KA, KB, ZB; reflexivity).
  split; [exact Hk|]. intros marshal m. now rewrite Hk.
Qed.

Lemma InitializeKEK_two_parties_agree_witness :
  exists kA kB,
    InitializeKEK (prv_of 1) (Pub (prv_of 2)) params1 None toy_hash [] reader_r0
      = Ok (Some kA) /\
    InitializeKEK (prv_of 2) (Pub (prv_of 1)) params1 None toy_hash [] reader_r0
      = Ok (Some kB) /\
    kA = kB.
Proof.
  pose proof (GenerateKey_reader_x_prv_of 1 ltac:(lia)) as GA.
  pose proof (GenerateKey_reader_x_prv_of 2 ltac:(lia)) as GB.
  pose proof (InitializeKEK_ok (prv_of 1) (Pub (prv_of 2)) params1 None toy_hash
                [] reader_r0 1 _ _ I eq_refl ltac:(lia)
                (SharedKey_prv_of_ok 1 2 ltac:(lia) ltac:(lia))) as IA.
  pose proof (InitializeKEK_ok (prv_of 2) (Pub (prv_of 1)) params1 None toy_hash
                [] reader_r0 1 _ _ I eq_refl ltac:(lia)
                (SharedKey_prv_of_ok 2 1 ltac:(lia) ltac:(lia))) as IB.
  eexists _, _. split; [exact IA|]. split; [exact IB|].
  exact (proj1 (InitializeKEK_two_parties_agree (reader_x 1) (reader_x 2)
                  (prv_of 1) (prv_of 2) [] [] params1 None toy_hash [] reader_r0 reader_r0
                  _ _ eq_refl eq_refl eq_refl eq_refl GA GB IA IB)).
Defined.

(** X20: when the key fits in one hash block ([0 < keylen <= hLen], as
    for [KEKAES256CBCHMACSHA512] with SHA-512), each [CEK] call moves the
    counter by one, so calls [j < k] with [k - j < 2^32] run with different
    counters. *)
Theorem CEK_counters_distinct marshal kek j k keysj kj keysk kk :
  ctr_ok (kek_counter kek) = true -> hbuf kek = [] ->
  (0 < Z.to_nat (KeyLen kek) <= Size (h kek))%nat ->
  (j < k)%nat -> Z.of_nat k - Z.of_nat j < 2 ^ 32 ->
  CEK_seq marshal j kek = Ok (keysj, kj) -> CEK_seq marshal k kek = Ok (keysk, kk) ->
  kek_counter kj <> kek_counter kk.
Proof.
  intros Hc Hb Hk Hjk Hd Ej Ek.
  assert (B1 : kek_blocks kek = 1%nat) by (apply nblocks_one; [apply Size_pos|exact Hk]).
  destruct (CEK_seq_inv marshal j kek keysj kj Hc Hb Ej) as (_ & _ & Vj).
  destruct (CEK_seq_inv marshal k kek keysk kk Hc Hb Ek) as (_ & _ & Vk).
  rewrite B1 in Vj, Vk. intros Heq. rewrite Heq, Vk in Vj.
  set (c := SetBytes (kek_counter kek)) in *.
  change (2 ^ 32) with 4294967296 in *.
  pose proof (Z.div_mod (c + Z.of_nat k * Z.of_nat 1) 4294967296 ltac:(lia)).
  pose proof (Z.div_mod (c + Z.of_nat j * Z.of_nat 1) 4294967296 ltac:(lia)).
  lia.
Qed.

Lemma CEK_counters_distinct_witness :
  exists keys kk, CEK_seq toy_marshal 1 kek32 = Ok (keys, kk) /\
                  kek_counter kek32 <> kek_counter kk.
Proof.
  assert (K : KeyLen kek32 = 32) by reflexivity.
  destruct (CEK_seq_ok toy_marshal 1 kek32 ltac:(rewrite K; discriminate)
              toy_marshal_total eq_refl) as (keys & kk & E).
  exists keys, kk. split; [exact E|].
  apply (CEK_counters_distinct toy_marshal kek32 0 1 [] kek32 keys kk eq_refl eq_refl);
    [rewrite K; cbn; lia | lia | lia | reflexivity | exact E].
Defined.
